(** * watcher: a shallow embedding of [watcher.go]

    The program polls a set of watch roots, keeps the latest modification
    time seen so far and re-runs a command when a newer one shows up.
    This file embeds [processFlags], [normalizePaths], [selectiveWalk],
    [findLatestChange], [execute], [executeAndHandle] and the loop of
    [main], together with the parts of Go's library they call
    ([strconv.ParseInt], [time.Duration.Round], [filepath.WalkDir]). *)

From Stdlib Require Import ZArith List Bool Ascii String Lia Sorted.
Import ListNotations.

Local Open Scope string_scope.
Local Open Scope Z_scope.

Set Warnings "-register-all".

(** ** Go values *)

(** An [error] value is an interface value: what a type switch sees is
    its dynamic type.  One constructor per dynamic type that can occur;
    a struct value and a pointer to that struct are different types. *)
Inductive error : Type :=
| errorString (s : string)                   (* *errors.errorString: errors.New, fmt.Errorf *)
| SkipDir                                    (* the sentinel filepath.SkipDir *)
| SkipAll                                    (* the sentinel filepath.SkipAll *)
| unsupportedOSError (e : error)             (* unsupportedOSError{e}, the struct value *)
| ptr_unsupportedOSError (e : error)         (* *unsupportedOSError *)
| startProcessFailureError (e : error)       (* startProcessFailureError{e} *)
| ptr_startProcessFailureError (e : error)   (* *startProcessFailureError *)
| ptr_ExitError (code : Z)                   (* *exec.ExitError, with its ExitCode() *)
| ptr_execError (name : string) (e : error)  (* *exec.Error *)
| ptr_PathError (op path : string) (e : error) (* *fs.PathError *)
| Errno (n : Z).                             (* syscall.Errno *)

(** [err == filepath.SkipDir], [err == filepath.SkipAll]. *)
Definition isSkipDir (e : error) : bool :=
  match e with SkipDir => true | _ => false end.

Definition isSkipAll (e : error) : bool :=
  match e with SkipAll => true | _ => false end.

(** [time.Time] as the number of nanoseconds since the zero Time;
    [time.Duration] is an int64 count of nanoseconds. *)
Definition Time := Z.
Definition Duration := Z.

Definition zeroTime : Time := 0.

(** [t.After(u)] *)
Definition After (t u : Time) : bool := u <? t.

Definition Millisecond : Duration := 1000000.

(** int64 wrap-around *)
Definition wrap64 (x : Z) : Z :=
  (x + 2 ^ 63) mod 2 ^ 64 - 2 ^ 63.

Definition maxDuration : Duration := 2 ^ 63 - 1.
Definition minDuration : Duration := - 2 ^ 63.

(** [lessThanHalf(x, y)]: [uint64(x)+uint64(x) < uint64(y)] *)
Definition lessThanHalf (x y : Duration) : bool :=
  ((x mod 2 ^ 64) + (x mod 2 ^ 64)) mod 2 ^ 64 <? y mod 2 ^ 64.

(** [d.Round(m)] of package time; [%] is Go's truncated remainder. *)
Definition Round (d m : Duration) : Duration :=
  if m <=? 0 then d
  else
    let r := Z.rem d m in
    if d <? 0 then
      let r := wrap64 (- r) in
      if lessThanHalf r m then wrap64 (d + r)
      else
        let d1 := wrap64 (wrap64 (d - m) + r) in
        if d1 <? d then d1 else minDuration
    else
      if lessThanHalf r m then wrap64 (d - r)
      else
        let d1 := wrap64 (wrap64 (d + m) - r) in
        if d <? d1 then d1 else maxDuration.

(** ** Strings *)

(** [strings.HasPrefix(s, prefix)] *)
Definition HasPrefix (s prefix : string) : bool := String.prefix prefix s.

(** [strings.HasSuffix(s, suffix)]:
    [len(s) >= len(suffix) && s[len(s)-len(suffix):] == suffix] *)
Definition HasSuffix (s suffix : string) : bool :=
  let n := String.length s in
  let m := String.length suffix in
  (m <=? n)%nat && String.eqb (substring (n - m) m s) suffix.

(** [strings.ReplaceAll(s, old, new)] for one-byte [old] and [new], the
    only way the watcher calls it. *)
Fixpoint ReplaceAll (s : string) (old new : ascii) : string :=
  match s with
  | EmptyString => EmptyString
  | String c s' =>
      String (if Ascii.eqb c old then new else c) (ReplaceAll s' old new)
  end.

(** [strings.Join(elems, sep)] *)
Definition Join_strings (elems : list string) (sep : string) : string :=
  String.concat sep elems.

(** [strconv.ParseInt(s, 10, 0)] on a 64-bit platform: an optional sign,
    then one or more decimal digits, the value within int64; [None] is a
    non-nil error (syntax or range). *)
Definition digitVal (c : ascii) : option Z :=
  let n := Z.of_N (N_of_ascii c) in
  if (48 <=? n) && (n <=? 57) then Some (n - 48) else None.

Fixpoint parseDigits (s : string) (acc : Z) : option Z :=
  match s with
  | EmptyString => Some acc
  | String c s' =>
      match digitVal c with
      | Some d => parseDigits s' (acc * 10 + d)
      | None => None
      end
  end.

Definition ParseUint (s : string) : option Z :=
  match s with
  | EmptyString => None
  | _ => parseDigits s 0
  end.

Definition ParseInt (s : string) : option Z :=
  match s with
  | EmptyString => None
  | String c s' =>
      let neg := Ascii.eqb c "-" in
      let body := if Ascii.eqb c "+" || neg then s' else s in
      match ParseUint body with
      | None => None
      | Some un =>
          let cutoff := 2 ^ 63 in
          if negb neg && (cutoff <=? un) then None
          else if neg && (cutoff <? un) then None
          else Some (if neg then - un else un)
      end
  end.

(** ** The platform

    What the watcher takes from the operating system and from
    [path/filepath]: these differ between Windows and Unix.  The console
    mode switch of package [ansi] is a system call; only its result is
    kept. *)
Record Platform := {
  GOOS : string;                                   (* runtime.GOOS *)
  Abs : string -> error + string;                  (* filepath.Abs *)
  Clean : string -> string;                        (* filepath.Clean *)
  Match : string -> string -> bool * option error; (* filepath.Match *)
  Join : string -> string -> string;               (* filepath.Join of two elements *)
  EnableVirtualTerminal : option error             (* ansi.EnableVirtualTerminal(os.Stdout.Fd()) *)
}.

(** ** Flags *)

Definition Granularity : Duration := 100 * Millisecond.

Inductive flag := flagWatch | flagIgnore | flagExec | flagTickSpeed | flagAfterTickSpeed.

(** The map [flags]. *)
Definition flags (arg : string) : option flag :=
  if String.eqb arg "-w" || String.eqb arg "--watch" then Some flagWatch
  else if String.eqb arg "-i" || String.eqb arg "--ignore" then Some flagIgnore
  else if String.eqb arg "-e" || String.eqb arg "--exec" then Some flagExec
  else if String.eqb arg "-t" || String.eqb arg "--tick-speed" then Some flagTickSpeed
  else None.

Definition errNothingToWatchOver := errorString "no file to watch over has been given".
Definition errNoExecFlag :=
  errorString "no execution flag has been found or there is nothing after it".
Definition errUnknownFlag (flag : string) := errorString ("unknown flag: " ++ flag).
Definition errArgAfterTickSpeedFlag :=
  errorString "only one argument should be passed after a tick speed flag".
Definition errFailedToParseMilliseconds :=
  errorString "given milliseconds failed to be parsed as a number".
Definition errTickSpeedNonPositive := errorString "tick speed must be positive".
Definition errTickSpeedGranAlreadySet := errorString "the tick speed has already been set".
Definition errUnsupportedOS (os : string) : error :=
  unsupportedOSError (errorString ("unsupported OS: " ++ os)).

Record flagState := {
  watch : list string;
  ignore : list string;
  gran : Duration;
  exec : list string
}.

Definition emptyFlagState : flagState :=
  {| watch := []; ignore := []; gran := 0; exec := [] |}.

Definition isFlagLike (arg : string) : bool := HasPrefix arg "-".

(** The [for i, arg := range args] loop of [processFlags]: [inr] is the
    state at the label [exit], [inl] an early [return flagState{}, err]. *)
Fixpoint processFlags_loop (args : list string) (currentFlag : flag) (fls : flagState)
  : error + flagState :=
  match args with
  | [] => inl errNoExecFlag
  | arg :: rest =>
      match flags arg with
      | Some f => processFlags_loop rest f fls
      | None =>
          if isFlagLike arg then inl (errUnknownFlag arg)
          else
            match currentFlag with
            | flagWatch =>
                processFlags_loop rest currentFlag
                  {| watch := watch fls ++ [arg]; ignore := ignore fls;
                     gran := gran fls; exec := exec fls |}
            | flagIgnore =>
                processFlags_loop rest currentFlag
                  {| watch := watch fls; ignore := ignore fls ++ [arg];
                     gran := gran fls; exec := exec fls |}
            | flagExec =>
                inr {| watch := watch fls; ignore := ignore fls;
                       gran := gran fls; exec := arg :: rest |}
            | flagTickSpeed =>
                match ParseInt arg with
                | None => inl errFailedToParseMilliseconds
                | Some num =>
                    if num <=? 0 then inl errTickSpeedNonPositive
                    else if negb (gran fls =? 0) then inl errTickSpeedGranAlreadySet
                    else
                      processFlags_loop rest flagAfterTickSpeed
                        {| watch := watch fls; ignore := ignore fls;
                           gran := Round num Granularity; exec := exec fls |}
                end
            | flagAfterTickSpeed => inl errArgAfterTickSpeedFlag
            end
      end
  end.

Section Platform.

Variable os : Platform.

(** The two loops of [normalizePaths]. *)
Fixpoint normalizeWatch (ws : list string) : error + list string :=
  match ws with
  | [] => inr []
  | w :: ws' =>
      match Abs os w with
      | inl err => inl err
      | inr result =>
          match normalizeWatch ws' with
          | inl err => inl err
          | inr rs => inr (result :: rs)
          end
      end
  end.

Fixpoint normalizeIgnore (igs : list string) : error + list string :=
  match igs with
  | [] => inr []
  | ig :: igs' =>
      let ig' := Clean os ig in
      match snd (Match os ig' "") with
      | Some err => inl err
      | None =>
          match normalizeIgnore igs' with
          | inl err => inl err
          | inr rs => inr (ig' :: rs)
          end
      end
  end.

Definition normalizePaths (fls : flagState) : error + flagState :=
  match normalizeWatch (watch fls) with
  | inl err => inl err
  | inr ws =>
      match normalizeIgnore (ignore fls) with
      | inl err => inl err
      | inr igs =>
          inr {| watch := ws; ignore := igs; gran := gran fls; exec := exec fls |}
      end
  end.

Definition processFlags (args : list string) : error + flagState :=
  match processFlags_loop args flagWatch emptyFlagState with
  | inl err => inl err
  | inr fls =>
      if (List.length (watch fls) =? 0)%nat then inl errNothingToWatchOver
      else
        let fls :=
          if gran fls =? 0
          then {| watch := watch fls; ignore := ignore fls;
                  gran := Granularity; exec := exec fls |}
          else fls in
        normalizePaths fls
  end.

(** ** The file system

    [fs.FileInfo] (what the watcher reads of it) and the tree a walk
    finds under a root.  [File] stands for every entry that is not a
    directory ([d.IsDir()] false: regular files, symlinks, ...).  [info]
    is what [d.Info()] returns; [readErr] and [entries] are what
    [os.ReadDir] returns for a directory: the entries in the order listed
    and the error, if any. *)
Record FileInfo := { ModTime : Time }.

Inductive DirEntry : Type :=
| File (name : string) (info : error + FileInfo)
| Dir (name : string) (info : error + FileInfo)
      (readErr : option error) (entries : list DirEntry).

Definition Name (d : DirEntry) : string :=
  match d with File n _ => n | Dir n _ _ _ => n end.

Definition Info (d : DirEntry) : error + FileInfo :=
  match d with File _ i => i | Dir _ i _ _ => i end.

Definition IsDir (d : DirEntry) : bool :=
  match d with File _ _ => false | Dir _ _ _ _ => true end.

(** [os.Lstat] on a watch root, with the tree below it. *)
Definition FileSystem := string -> error + DirEntry.

(** ** [filepath.WalkDir]

    A [fs.WalkDirFunc] is called with [(path, d, nil)] on an entry, or
    with [(path, d, err)] to report a failed [Lstat] ([d] is nil) or
    [ReadDir].  The closure's captured variables are the state [St]. *)
Inductive walkArg :=
| Visit (d : DirEntry)
| Failed (d : option DirEntry) (err : error).

Definition WalkDirFunc (St : Type) := string -> walkArg -> St -> St * option error.

(** [if err == SkipDir && d.IsDir() { err = nil }; return err], for a
    directory [d]. *)
Definition skippedDir (e : error) : option error :=
  if isSkipDir e then None else Some e.

Section Walk.

Context {St : Type}.
Variable walkDirFn : WalkDirFunc St.

(** [walkDir(path, d, walkDirFn)] *)
Fixpoint walkDir (path : string) (d : DirEntry) (s : St) : St * option error :=
  let '(s, err) := walkDirFn path (Visit d) s in
  match d with
  | File _ _ => (s, err)
  | Dir _ _ readErr dirs =>
      match err with
      | Some e => (s, skippedDir e)
      | None =>
          let '(s, err) :=
            match readErr with
            | None => (s, None)
            | Some re => walkDirFn path (Failed (Some d) re) s
            end in
          match err with
          | Some e => (s, skippedDir e)
          | None =>
              (fix walkEntries (ds : list DirEntry) (s : St) : St * option error :=
                 match ds with
                 | [] => (s, None)
                 | d1 :: rest =>
                     let '(s, err) := walkDir (Join os path (Name d1)) d1 s in
                     match err with
                     | Some e => if isSkipDir e then (s, None) else (s, Some e)
                     | None => walkEntries rest s
                     end
                 end) dirs s
          end
      end
  end.

(** The [for _, d1 := range dirs] loop of [walkDir], by itself. *)
Fixpoint walkEntries (path : string) (ds : list DirEntry) (s : St) : St * option error :=
  match ds with
  | [] => (s, None)
  | d1 :: rest =>
      let '(s, err) := walkDir (Join os path (Name d1)) d1 s in
      match err with
      | Some e => if isSkipDir e then (s, None) else (s, Some e)
      | None => walkEntries path rest s
      end
  end.

(** [filepath.WalkDir(root, fn)] *)
Definition WalkDir (fsys : FileSystem) (root : string) (s : St) : St * option error :=
  let '(s, err) :=
    match fsys root with
    | inl err => walkDirFn root (Failed None err) s
    | inr d => walkDir root d s
    end in
  match err with
  | Some e => if isSkipDir e || isSkipAll e then (s, None) else (s, Some e)
  | None => (s, None)
  end.

End Walk.

(** ** The scan *)

(** The [for _, ig := range fls.ignore] loop of the closure in
    [selectiveWalk]: true when it returns [filepath.SkipDir]. *)
Definition excluded (ignore : list string) (path : string) : bool :=
  existsb
    (fun ig => HasSuffix path ig || fst (Match os ig (ReplaceAll path "\" "/")))
    ignore.

Section Scan.

Context {St : Type}.
Variable fls : flagState.
Variable fsys : FileSystem.
Variable action : string -> FileInfo -> St -> St * option error.

(** The closure [selectiveWalk] passes to [filepath.WalkDir]. *)
Definition selectiveFn : WalkDirFunc St :=
  fun path arg s =>
    match arg with
    | Failed _ err => (s, Some err)
    | Visit d =>
        if excluded (ignore fls) path then (s, Some SkipDir)
        else
          match Info d with
          | inl err => (s, Some err)
          | inr info => action path info s
          end
    end.

Fixpoint selectiveWalk_roots (roots : list string) (s : St) : St * option error :=
  match roots with
  | [] => (s, None)
  | root :: rest =>
      let '(s, err) := WalkDir selectiveFn fsys root s in
      match err with
      | Some e => (s, Some e)
      | None => selectiveWalk_roots rest s
      end
  end.

Definition selectiveWalk (s : St) : St * option error :=
  selectiveWalk_roots (watch fls) s.

End Scan.

(** The closure of [findLatestChange]; its state is the pair of named
    results [(latestModTime, filename)]. *)
Definition latestAction (path : string) (info : FileInfo) (st : Time * string)
  : (Time * string) * option error :=
  let modTime := ModTime info in
  if After modTime (fst st) then ((modTime, path), None) else (st, None).

Definition findLatestChange (fls : flagState) (fsys : FileSystem)
  : Time * string * option error :=
  let '((latestModTime, filename), err) :=
    selectiveWalk fls fsys latestAction (zeroTime, "") in
  (latestModTime, filename, err).

(** The entries a scan hands to its action, in traversal order: the
    scan run with an action that only records its arguments. *)
Definition recordAction (path : string) (info : FileInfo) (l : list (string * FileInfo))
  : list (string * FileInfo) * option error :=
  ((l ++ [(path, info)])%list, None).

Definition visited (fls : flagState) (fsys : FileSystem) : list (string * FileInfo) :=
  fst (selectiveWalk fls fsys recordAction []).

End Platform.

(** ** The command runner *)

(** [exec.Command(name, arg...)] and what the operating system does with
    it: [cmd.Start()] fails with an error, or the process starts and
    [cmd.Wait()] returns nil or an error ([*exec.ExitError] for a
    non-zero exit). *)
Record Cmd := { cmdName : string; cmdArgs : list string }.

Inductive Process :=
| StartFails (err : error)
| Waited (err : option error).

(** What the program prints, without the clock readings. *)
Inductive Output :=
| FirstExecution
| HasChanged (filename : string)
| Println (err : error)
| ExitedWithCode (code : Z)
| Newline
| StatusLine
| FailedToEnableVirtualTerminal (err : error)
| VersionText
| HelpText.

Section Runner.

Variable os : Platform.
Variable fls : flagState.
Variable spawn : Cmd -> Process.

(** [switch runtime.GOOS] of [execute]: the command to run, if any. *)
Definition command : option Cmd :=
  if String.eqb (GOOS os) "windows"
  then Some {| cmdName := "cmd"; cmdArgs := "/c" :: exec fls |}
  else if String.eqb (GOOS os) "darwin" || String.eqb (GOOS os) "linux"
  then Some {| cmdName := "/bin/sh"; cmdArgs := ["-c"; Join_strings (exec fls) " "] |}
  else None.

Definition execute : option error :=
  match command with
  | None => Some (errUnsupportedOS (GOOS os))
  | Some cmd =>
      match spawn cmd with
      | StartFails err => Some err
      | Waited err => err
      end
  end.

(** [executeAndHandle(filename)]: the type switch looks at the dynamic
    type of [err]; with no case taken, control reaches the final
    [fmt.Print] and [return true]. *)
Definition executeAndHandle (filename : string) : list Output * bool :=
  let banner :=
    if String.eqb filename "" then FirstExecution else HasChanged filename in
  match execute with
  | Some (ptr_unsupportedOSError e) => ([banner; Println (ptr_unsupportedOSError e)], false)
  | Some (ptr_startProcessFailureError e) =>
      ([banner; Println (ptr_startProcessFailureError e)], false)
  | Some (ptr_ExitError code) =>
      if negb (code =? 0)
      then ([banner; ExitedWithCode code; Newline], true)
      else ([banner; Newline], true)
  | _ => ([banner; Newline], true)
  end.

End Runner.

(** ** The loop of [main]

    One [World] per step: which case of the [select] is ready, the file
    system a scan would see and what a started command would do. *)
Inductive selectCase := caseSignals | caseTicker.

Record World := {
  ready : selectCase;
  files : FileSystem;
  spawn : Cmd -> Process
}.

(** Where control stands in [main], from the first execution on. *)
Inductive pc :=
| atFirstExecution                                  (* fls.executeAndHandle("") *)
| atSelect                                          (* select { ... } *)
| atExecute (latestModTime : Time) (filename : string) (* fls.executeAndHandle(filename) *)
| atAssign (latestModTime : Time)                   (* currentLatestModTime = latestModTime *)
| returned.

Record mainState := {
  at_ : pc;
  currentLatestModTime : Time;
  printed : list Output
}.

Section Main.

Variable os : Platform.

Definition step (fls : flagState) (w : World) (st : mainState) : mainState :=
  let cur := currentLatestModTime st in
  match at_ st with
  | atFirstExecution =>
      let '(out, ok) := executeAndHandle os fls (spawn w) "" in
      {| at_ := if ok then atSelect else returned;
         currentLatestModTime := cur;
         printed := (printed st ++ out)%list |}
  | atSelect =>
      match ready w with
      | caseSignals =>
          {| at_ := returned; currentLatestModTime := cur; printed := printed st |}
      | caseTicker =>
          let '(latestModTime, filename, err) := findLatestChange os fls (files w) in
          match err with
          | Some e =>
              {| at_ := returned; currentLatestModTime := cur;
                 printed := (printed st ++ [Println e])%list |}
          | None =>
              if negb (After latestModTime cur)
              then {| at_ := atSelect; currentLatestModTime := cur;
                      printed := (printed st ++ [StatusLine])%list |}
              else {| at_ := atExecute latestModTime filename;
                      currentLatestModTime := cur; printed := printed st |}
          end
      end
  | atExecute latestModTime filename =>
      let '(out, ok) := executeAndHandle os fls (spawn w) filename in
      {| at_ := if ok then atAssign latestModTime else returned;
         currentLatestModTime := cur;
         printed := (printed st ++ out)%list |}
  | atAssign latestModTime =>
      {| at_ := atSelect; currentLatestModTime := latestModTime; printed := printed st |}
  | returned => st
  end.

(** The states [main] goes through, one [World] per step. *)
Fixpoint run (fls : flagState) (ws : list World) (st : mainState) : list mainState :=
  st ::
  match ws with
  | [] => []
  | w :: ws' => run fls ws' (step fls w st)
  end.

(** The [switch os.Args[1]] of [main]; [args] is [os.Args[1:]]. *)
Definition firstArgIs (args : list string) (long short : string) : bool :=
  match args with
  | [] => false
  | a :: _ => String.eqb a long || String.eqb a short
  end.

Definition returnedWith (out : list Output) : mainState :=
  {| at_ := returned; currentLatestModTime := zeroTime; printed := out |}.

(** [main]: [args] is [os.Args[1:]], [w0] the world of the first scan,
    [ws] the worlds of the steps that follow. *)
Definition main (args : list string) (w0 : World) (ws : list World) : list mainState :=
  match EnableVirtualTerminal os with
  | Some err => [returnedWith [FailedToEnableVirtualTerminal err]]
  | None =>
      if firstArgIs args "--help" "-h" then [returnedWith [VersionText; HelpText]]
      else if firstArgIs args "--version" "-v" then [returnedWith [VersionText]]
      else
        match processFlags os args with
        | inl err => [returnedWith [Println err]]
        | inr fls =>
            match findLatestChange os fls (files w0) with
            | (_, _, Some err) => [returnedWith [Println err]]
            | (t, _, None) =>
                run fls ws
                  {| at_ := atFirstExecution; currentLatestModTime := t; printed := [] |}
            end
        end
  end.

End Main.

(** ** A concrete platform

    Linux with working directory [/work].  [globMatch] is
    [filepath.Match] for patterns made of [*], [?] and ordinary
    characters (no class, no escape), which are never malformed; [Abs],
    [Clean] and [Join] are exact on clean paths without dot segments.
    The examples below stay within these. *)
Fixpoint globMatch (pattern name : string) : bool :=
  match pattern with
  | EmptyString => match name with EmptyString => true | _ => false end
  | String c pattern' =>
      if Ascii.eqb c "*" then
        (fix star (n : string) : bool :=
           globMatch pattern' n ||
           match n with
           | EmptyString => false
           | String d n' => negb (Ascii.eqb d "/") && star n'
           end) name
      else
        match name with
        | EmptyString => false
        | String d name' =>
            (if Ascii.eqb c "?" then negb (Ascii.eqb d "/") else Ascii.eqb c d)
            && globMatch pattern' name'
        end
  end.

Definition linux : Platform :=
  {| GOOS := "linux";
     Abs := fun p => inr (if HasPrefix p "/" then p else "/work/" ++ p);
     Clean := fun p => p;
     Match := fun pattern name => (globMatch pattern name, None);
     Join := fun p n => p ++ "/" ++ n;
     EnableVirtualTerminal := None |}.

Definition mtime (t : Z) : error + FileInfo := inr {| ModTime := t |}.

Definition ENOENT : error := Errno 2.
Definition EACCES : error := Errno 13.

(** A file system with the single root [root]. *)
Definition oneRoot (root : string) (d : DirEntry) : FileSystem :=
  fun p => if String.eqb p root then inr d else inl (ptr_PathError "lstat" p ENOENT).

(** ** Vocabulary of the statements *)

(** Two results of a walk: states related by [R], the same error. *)
Definition related {St1 St2 : Type} (R : St1 -> St2 -> Prop)
  (r1 : St1 * option error) (r2 : St2 * option error) : Prop :=
  R (fst r1) (fst r2) /\ snd r1 = snd r2.

(** One step of the running maximum of [findLatestChange]. *)
Definition later (st : Time * string) (e : string * FileInfo) : Time * string :=
  if After (ModTime (snd e)) (fst st) then (ModTime (snd e), fst e) else st.

(** [(t, f)] is the first entry of [v] that carries the latest time of
    [v], or the zero values when no entry is after the zero Time. *)
Definition firstLatest (v : list (string * FileInfo)) (t : Time) (f : string) : Prop :=
  (t = zeroTime /\ f = "" /\ Forall (fun e => ModTime (snd e) <= zeroTime) v) \/
  (exists pre i post,
      v = (pre ++ (f, i) :: post)%list /\ t = ModTime i /\ zeroTime < t /\
      Forall (fun e => ModTime (snd e) < t) pre /\
      Forall (fun e => ModTime (snd e) <= t) post).


(** The result [r] of a recording walk started with [l]: [l] followed by
    entries whose paths satisfy [P]. *)
Definition grows (P : string -> Prop) (l : list (string * FileInfo))
  (r : list (string * FileInfo) * option error) : Prop :=
  exists new, fst r = (l ++ new)%list /\ Forall (fun e => P (fst e)) new.

(** [through os ign path d q]: [q] is the path of an entry of the tree
    [d] standing at [path], and no ignore rule excludes [path], [q] or
    any directory between them. *)
Fixpoint through (os : Platform) (ign : list string) (path : string) (d : DirEntry)
  (q : string) : Prop :=
  excluded os ign path = false /\
  (q = path \/
   match d with
   | File _ _ => False
   | Dir _ _ _ ds =>
       (fix any (ds : list DirEntry) : Prop :=
          match ds with
          | [] => False
          | c :: ds' => through os ign (Join os path (Name c)) c q \/ any ds'
          end) ds
   end).

Definition throughEntries (os : Platform) (ign : list string) (path : string)
  (ds : list DirEntry) (q : string) : Prop :=
  Exists (fun c => through os ign (Join os path (Name c)) c q) ds.

(** [q] is reached from a watch root of [fls] through directories that
    no ignore rule excludes. *)
Definition reachable (os : Platform) (fls : flagState) (fsys : FileSystem) (q : string)
  : Prop :=
  exists root d,
    In root (watch fls) /\ fsys root = inr d /\ through os (ignore fls) root d q.

(** A package directory inside [node_modules], seen from both paths. *)
Definition nestedFs : FileSystem :=
  fun p =>
    if String.eqb p "/work/node_modules" then
      inr (Dir "node_modules" (mtime 5) None
             [Dir "pkg" (mtime 6) None [File "index.js" (mtime 9)]])
    else if String.eqb p "/work/node_modules/pkg" then
      inr (Dir "pkg" (mtime 6) None [File "index.js" (mtime 9)])
    else inl (ptr_PathError "lstat" p ENOENT).

(** A state about to run the command for a poll, or about to store the
    poll's time, holds a time strictly after the stored one. *)
Definition pending (st : mainState) : Prop :=
  match at_ st with
  | atExecute latestModTime _ | atAssign latestModTime =>
      currentLatestModTime st < latestModTime
  | _ => True
  end.

(** From one state to the next the stored time is kept, or replaced at
    the assignment by a strictly later one. *)
Definition baselineStep (st st' : mainState) : Prop :=
  currentLatestModTime st' = currentLatestModTime st \/
  (at_ st = atAssign (currentLatestModTime st') /\
   currentLatestModTime st < currentLatestModTime st').

(** The source tree of the examples, with [a.go] modified at [t]. *)
Definition srcFs (t : Z) : FileSystem :=
  oneRoot "/work/src" (Dir "src" (mtime 5) None [File "a.go" (mtime t)]).

(** Configurations and worlds of the examples. *)
Definition config (ws igs : list string) : flagState :=
  {| watch := ws; ignore := igs; gran := Granularity; exec := ["make"] |}.

Definition world (c : selectCase) (fsys : FileSystem) (p : Process) : World :=
  {| ready := c; files := fsys; spawn := fun _ => p |}.

(** ** [ansi-escape/vterminal_windows.go]

    A console handle is its mode word, a uint32, together with what the
    two system calls on it do: [getFails] and [setFails] are the errors
    [syscall.GetConsoleMode] and [windows.SetConsoleMode] return, if any.
    A failed [SetConsoleMode] leaves the mode as it was.  The constant
    [windows.ENABLE_VIRTUAL_TERMINAL_PROCESSING] is declared outside the
    repository and is a parameter.  [|] and [&^] on uint32 values stay
    within uint32, so no wrap-around is written. *)
Module Ansi.

Record Console := {
  mode : Z;
  getFails : option error;
  setFails : option error
}.

Definition GetConsoleMode (c : Console) : Z * option error :=
  match getFails c with
  | Some err => (0, Some err)
  | None => (mode c, None)
  end.

Definition SetConsoleMode (c : Console) (m : Z) : Console * option error :=
  match setFails c with
  | Some err => (c, Some err)
  | None => ({| mode := m; getFails := getFails c; setFails := setFails c |}, None)
  end.

Section Flag.

Variable ENABLE_VIRTUAL_TERMINAL_PROCESSING : Z.

Definition EnableVirtualTerminal (c : Console) : Console * option error :=
  let '(mode, err) := GetConsoleMode c in
  match err with
  | Some e => (c, Some e)
  | None => SetConsoleMode c (Z.lor mode ENABLE_VIRTUAL_TERMINAL_PROCESSING)
  end.

Definition DisableVirtualTerminal (c : Console) : Console * option error :=
  let '(mode, err) := GetConsoleMode c in
  match err with
  | Some e => (c, Some e)
  | None => SetConsoleMode c (Z.ldiff mode ENABLE_VIRTUAL_TERMINAL_PROCESSING)
  end.

End Flag.

End Ansi.

(** ** More vocabulary *)

(** A tree the walk reads without an error: every [d.Info()] and every
    [os.ReadDir] succeeds. *)
Fixpoint healthy (d : DirEntry) : bool :=
  match d with
  | File _ (inr _) => true
  | Dir _ (inr _) None ds => forallb healthy ds
  | _ => false
  end.

(** The entries of the tree [d] standing at [path], parents before
    children, children in the order listed. *)
Fixpoint entriesOf (os : Platform) (path : string) (d : DirEntry)
  : list (string * FileInfo) :=
  (match Info d with inr info => [(path, info)] | inl _ => [] end ++
   match d with
   | File _ _ => []
   | Dir _ _ _ ds => flat_map (fun c => entriesOf os (Join os path (Name c)) c) ds
   end)%list.

(** Two trees standing at [path] that list the same names and are equal
    except at excluded paths: there the two entries only have to be of
    the same kind (both directories, or both not), whatever their
    [FileInfo], their errors and what lies below them. *)
Fixpoint agree (os : Platform) (ign : list string) (path : string) (d d' : DirEntry)
  : Prop :=
  if excluded os ign path then IsDir d = IsDir d'
  else
    match d, d' with
    | File _ i, File _ i' => i = i'
    | Dir _ i re ds, Dir _ i' re' ds' =>
        i = i' /\ re = re' /\
        (fix all (ds ds' : list DirEntry) : Prop :=
           match ds, ds' with
           | [], [] => True
           | c :: r, c' :: r' =>
               Name c = Name c' /\ agree os ign (Join os path (Name c)) c c' /\ all r r'
           | _, _ => False
           end) ds ds'
    | _, _ => False
    end.

Definition agreeEntries (os : Platform) (ign : list string) (path : string)
  (ds ds' : list DirEntry) : Prop :=
  Forall2 (fun c c' => Name c = Name c' /\ agree os ign (Join os path (Name c)) c c')
    ds ds'.

(** The times for which a run invoked the command after a poll. *)
Definition triggers (tr : list mainState) : list Time :=
  flat_map (fun st => match at_ st with atExecute t _ => [t] | _ => [] end) tr.

(** A plain argument: not a flag of the map, not flag-like. *)
Definition plain (arg : string) : Prop :=
  flags arg = None /\ isFlagLike arg = false.

(** An argument that keeps the loop of [processFlags] collecting watch
    and ignore paths: a watch or ignore flag, or a plain argument. *)
Definition collecting (arg : string) : Prop :=
  flags arg = Some flagWatch \/ flags arg = Some flagIgnore \/ plain arg.

(** The entries under all the roots, root after root. *)
Definition allEntries (os : Platform) (fsys : FileSystem) (roots : list string)
  : list (string * FileInfo) :=
  flat_map (fun root => match fsys root with
                        | inr d => entriesOf os root d
                        | inl _ => []
                        end) roots.

(** The two file systems show, at the watch root [root], the same error
    or trees that agree outside the excluded paths. *)
Definition agreeAt (os : Platform) (ign : list string) (fsys fsys' : FileSystem)
  (root : string) : Prop :=
  match fsys root, fsys' root with
  | inr d, inr d' => agree os ign root d d'
  | inl e, inl e' => e = e'
  | _, _ => False
  end.

(** [fls] with another list of watch roots. *)
Definition withWatch (fls : flagState) (ws : list string) : flagState :=
  {| watch := ws; ignore := ignore fls; gran := gran fls; exec := exec fls |}.

(** [fls] with another command. *)
Definition withExec (fls : flagState) (e : list string) : flagState :=
  {| watch := watch fls; ignore := ignore fls; gran := gran fls; exec := e |}.

(** A time that a later trigger of the state [st] has to exceed. *)
Definition above (st : mainState) (t : Time) : Prop :=
  match at_ st with
  | atExecute t0 _ => t0 <= t
  | atAssign t0 => t0 < t
  | _ => currentLatestModTime st < t
  end.

(** The error types the watcher declares for itself, as pointers. *)
Definition ownError (e : error) : bool :=
  match e with
  | ptr_unsupportedOSError _ | ptr_startProcessFailureError _ => true
  | _ => false
  end.

(** The operating system returns errors of its own types only. *)
Definition systemErrorsOnly (sp : Cmd -> Process) : Prop :=
  forall cmd,
    match sp cmd with
    | StartFails e | Waited (Some e) => ownError e = false
    | Waited None => True
    end.

(** A tick whose scan succeeds and finds nothing after the time [t]. *)
Definition quietTick (os : Platform) (fls : flagState) (t : Time) (w : World) : Prop :=
  ready w = caseTicker /\
  exists t' f', findLatestChange os fls (files w) = (t', f', None) /\ t' <= t.

(** * Properties *)

(** ** Induction on directory trees *)

Lemma DirEntry_tree_ind (P : DirEntry -> Prop) :
  (forall n i, P (File n i)) ->
  (forall n i re ds, Forall P ds -> P (Dir n i re ds)) ->
  forall d, P d.
Proof.
  intros HF HD. fix IH 1. intros [n i | n i re ds].
  - apply HF.
  - apply HD. induction ds as [| d ds IHds]; constructor.
    + apply IH.
    + exact IHds.
Qed.

(** ** The walk, unfolded *)

Section WalkFacts.

Variable os : Platform.
Context {St : Type}.
Variable fn : WalkDirFunc St.

Lemma walkDir_File path n i s :
  walkDir os fn path (File n i) s = fn path (Visit (File n i)) s.
Proof. simpl. destruct (fn path (Visit (File n i)) s). reflexivity. Qed.

Lemma walkDir_Dir path n i re ds s :
  walkDir os fn path (Dir n i re ds) s =
  let '(s1, err) := fn path (Visit (Dir n i re ds)) s in
  match err with
  | Some e => (s1, skippedDir e)
  | None =>
      let '(s2, err2) :=
        match re with
        | None => (s1, None)
        | Some r => fn path (Failed (Some (Dir n i re ds)) r) s1
        end in
      match err2 with
      | Some e => (s2, skippedDir e)
      | None => walkEntries os fn path ds s2
      end
  end.
Proof.
  simpl. destruct (fn path (Visit (Dir n i re ds)) s) as [s1 [e |]]; [reflexivity |].
  destruct (match re with
            | None => (s1, None)
            | Some r => fn path (Failed (Some (Dir n i re ds)) r) s1
            end) as [s2 [e |]]; [reflexivity |].
  clear. revert s2. induction ds as [| d ds IH]; intro s2; [reflexivity |].
  simpl. destruct (walkDir os fn (Join os path (Name d)) d s2) as [s3 [e |]].
  - reflexivity.
  - apply IH.
Qed.

End WalkFacts.

(** ** Two walks side by side

    When two walk functions keep a relation between their states and
    return the same error, so do the walks built on them. *)
Section Simulation.

Variable os : Platform.
Context {St1 St2 : Type}.
Variable R : St1 -> St2 -> Prop.

Variable fn1 : WalkDirFunc St1.
Variable fn2 : WalkDirFunc St2.
Hypothesis fn_related :
  forall path arg s1 s2, R s1 s2 -> related R (fn1 path arg s1) (fn2 path arg s2).

Lemma walkEntries_related ds :
  Forall (fun d => forall path s1 s2, R s1 s2 ->
            related R (walkDir os fn1 path d s1) (walkDir os fn2 path d s2)) ds ->
  forall path s1 s2, R s1 s2 ->
    related R (walkEntries os fn1 path ds s1) (walkEntries os fn2 path ds s2).
Proof.
  induction 1 as [| d ds Hd _ IH]; intros path s1 s2 HR.
  - split; [exact HR | reflexivity].
  - simpl. specialize (Hd (Join os path (Name d)) s1 s2 HR).
    destruct (walkDir os fn1 (Join os path (Name d)) d s1) as [t1 e1].
    destruct (walkDir os fn2 (Join os path (Name d)) d s2) as [t2 e2].
    destruct Hd as [HR' He]. simpl in HR', He. subst e2.
    destruct e1 as [e |].
    + destruct (isSkipDir e); split; auto.
    + apply IH, HR'.
Qed.

Lemma walkDir_related d :
  forall path s1 s2, R s1 s2 ->
    related R (walkDir os fn1 path d s1) (walkDir os fn2 path d s2).
Proof.
  induction d as [n i | n i re ds IH] using DirEntry_tree_ind; intros path s1 s2 HR.
  - rewrite !walkDir_File. apply fn_related, HR.
  - rewrite !walkDir_Dir.
    pose proof (fn_related path (Visit (Dir n i re ds)) s1 s2 HR) as H.
    destruct (fn1 path (Visit (Dir n i re ds)) s1) as [t1 e1].
    destruct (fn2 path (Visit (Dir n i re ds)) s2) as [t2 e2].
    destruct H as [HR1 He]. simpl in HR1, He. subst e2.
    destruct e1 as [e |]; [split; auto |].
    assert (H2 : related R
                   (match re with
                    | None => (t1, None)
                    | Some r => fn1 path (Failed (Some (Dir n i re ds)) r) t1
                    end)
                   (match re with
                    | None => (t2, None)
                    | Some r => fn2 path (Failed (Some (Dir n i re ds)) r) t2
                    end)).
    { destruct re as [r |]; [apply fn_related, HR1 | split; auto]. }
    destruct (match re with
              | None => (t1, None)
              | Some r => fn1 path (Failed (Some (Dir n i re ds)) r) t1
              end) as [u1 f1].
    destruct (match re with
              | None => (t2, None)
              | Some r => fn2 path (Failed (Some (Dir n i re ds)) r) t2
              end) as [u2 f2].
    destruct H2 as [HR2 He]. simpl in HR2, He. subst f2.
    destruct f1 as [e |]; [split; auto |].
    apply walkEntries_related; assumption.
Qed.

Lemma WalkDir_related fsys root s1 s2 :
  R s1 s2 ->
  related R (WalkDir os fn1 fsys root s1) (WalkDir os fn2 fsys root s2).
Proof.
  intro HR. unfold WalkDir.
  assert (H : related R
                (match fsys root with
                 | inl err => fn1 root (Failed None err) s1
                 | inr d => walkDir os fn1 root d s1
                 end)
                (match fsys root with
                 | inl err => fn2 root (Failed None err) s2
                 | inr d => walkDir os fn2 root d s2
                 end)).
  { destruct (fsys root); [apply fn_related | apply walkDir_related]; exact HR. }
  destruct (match fsys root with
            | inl err => fn1 root (Failed None err) s1
            | inr d => walkDir os fn1 root d s1
            end) as [t1 e1].
  destruct (match fsys root with
            | inl err => fn2 root (Failed None err) s2
            | inr d => walkDir os fn2 root d s2
            end) as [t2 e2].
  destruct H as [HR' He]. simpl in HR', He. subst e2.
  destruct e1 as [e |]; [| split; auto].
  destruct (isSkipDir e || isSkipAll e); split; auto.
Qed.

End Simulation.

(** ** The scan as a fold over the visited entries *)

Section ScanFacts.

Variable os : Platform.
Variable fls : flagState.
Variable fsys : FileSystem.

Section TwoActions.

Context {St1 St2 : Type}.
Variable R : St1 -> St2 -> Prop.
Variable act1 : string -> FileInfo -> St1 -> St1 * option error.
Variable act2 : string -> FileInfo -> St2 -> St2 * option error.

(** The actions only have to agree on paths no ignore rule excludes:
    the closure never calls them on any other. *)
Hypothesis act_related :
  forall path info s1 s2,
    excluded os (ignore fls) path = false ->
    R s1 s2 -> related R (act1 path info s1) (act2 path info s2).

Lemma selectiveFn_related path arg s1 s2 :
  R s1 s2 ->
  related R (selectiveFn os fls act1 path arg s1) (selectiveFn os fls act2 path arg s2).
Proof.
  intro HR. unfold selectiveFn. destruct arg as [d | d err].
  - destruct (excluded os (ignore fls) path) eqn:Hex; [split; auto |].
    destruct (Info d) as [err | info]; [split; auto |].
    apply act_related; assumption.
  - split; auto.
Qed.

Lemma selectiveWalk_roots_related roots :
  forall s1 s2, R s1 s2 ->
    related R (selectiveWalk_roots os fls fsys act1 roots s1)
              (selectiveWalk_roots os fls fsys act2 roots s2).
Proof.
  induction roots as [| root roots IH]; intros s1 s2 HR; simpl.
  - split; auto.
  - pose proof (WalkDir_related os R _ _ selectiveFn_related fsys root s1 s2 HR) as H.
    destruct (WalkDir os (selectiveFn os fls act1) fsys root s1) as [t1 e1].
    destruct (WalkDir os (selectiveFn os fls act2) fsys root s2) as [t2 e2].
    destruct H as [HR' He]. simpl in HR', He. subst e2.
    destruct e1; [split; auto | apply IH, HR'].
Qed.

Lemma selectiveWalk_related s1 s2 :
  R s1 s2 ->
  related R (selectiveWalk os fls fsys act1 s1) (selectiveWalk os fls fsys act2 s2).
Proof. apply selectiveWalk_roots_related. Qed.

End TwoActions.

Lemma findLatestChange_fold :
  findLatestChange os fls fsys =
  (fold_left later (visited os fls fsys) (zeroTime, ""),
   snd (selectiveWalk os fls fsys recordAction [])).
Proof.
  unfold findLatestChange, visited.
  assert (H : related (fun st l => st = fold_left later l (zeroTime, ""))
                (selectiveWalk os fls fsys latestAction (zeroTime, ""))
                (selectiveWalk os fls fsys recordAction [])).
  { apply selectiveWalk_related; [| reflexivity].
    intros path info s1 s2 _ ->. unfold related, latestAction, recordAction.
    cbn [fst snd]. rewrite fold_left_app. cbn [fold_left].
    generalize (fold_left later s2 (zeroTime, "")). intro st.
    unfold later. cbn [fst snd].
    destruct (After (ModTime info) (fst st)); split; reflexivity. }
  destruct (selectiveWalk os fls fsys latestAction (zeroTime, "")) as [[t f] e].
  destruct (selectiveWalk os fls fsys recordAction []) as [l e'].
  destruct H as [H1 H2]. cbn [fst snd] in *. subst e'. rewrite <- H1. reflexivity.
Qed.

(** Every entry handed to the action has a path no ignore rule
    excludes. *)
Lemma visited_not_excluded :
  Forall (fun e => excluded os (ignore fls) (fst e) = false) (visited os fls fsys).
Proof.
  unfold visited.
  assert (H : related
                (fun (l : list (string * FileInfo)) (_ : unit) =>
                   Forall (fun e => excluded os (ignore fls) (fst e) = false) l)
                (selectiveWalk os fls fsys recordAction [])
                (selectiveWalk os fls fsys (fun _ _ u => (u, None)) tt)).
  { apply selectiveWalk_related; [| constructor].
    intros path info l u Hex HR. split; [| reflexivity]. simpl.
    apply Forall_app. split; [exact HR |]. constructor; [exact Hex | constructor]. }
  exact (proj1 H).
Qed.

End ScanFacts.

(** The running maximum ends on the first entry that carries the latest
    time, or stays where it started when no entry is later. *)
Lemma fold_later_first v :
  forall t0 f0 t f,
    fold_left later v (t0, f0) = (t, f) ->
    (t = t0 /\ f = f0 /\ Forall (fun e => ModTime (snd e) <= t0) v) \/
    (exists pre i post,
        v = (pre ++ (f, i) :: post)%list /\ t = ModTime i /\ t0 < t /\
        Forall (fun e => ModTime (snd e) < t) pre /\
        Forall (fun e => ModTime (snd e) <= t) post).
Proof.
  induction v as [| [p i] v IH]; intros t0 f0 t f H; simpl in H.
  - inversion H; subst. left. auto.
  - unfold later at 2 in H. unfold After in H. simpl in H.
    destruct (t0 <? ModTime i) eqn:Hlt.
    + apply Z.ltb_lt in Hlt.
      destruct (IH _ _ _ _ H) as [(-> & -> & Hall) | (pre & j & post & -> & -> & Hlt' & Hpre & Hpost)].
      * right. exists [], i, v. simpl. repeat split; auto.
      * right. exists ((p, i) :: pre), j, post. simpl.
        repeat split; auto; try lia; try (constructor; simpl; auto; lia).
    + apply Z.ltb_ge in Hlt.
      destruct (IH _ _ _ _ H) as [(-> & -> & Hall) | (pre & j & post & -> & -> & Hlt' & Hpre & Hpost)].
      * left. repeat split; auto; try (constructor; simpl; auto; lia).
      * right. exists ((p, i) :: pre), j, post. simpl.
        repeat split; auto; try lia; try (constructor; simpl; auto; lia).
Qed.

(** ** What an ignore rule does to the walk *)

Section IgnoreFacts.

Variable os : Platform.
Variable fls : flagState.
Context {St : Type}.
Variable action : string -> FileInfo -> St -> St * option error.

(** On an excluded path the closure returns [SkipDir] before it reads
    the entry: a directory is left without being read, a file hands
    [SkipDir] to the loop over its parent's entries. *)
Lemma walkDir_excluded path d s :
  excluded os (ignore fls) path = true ->
  walkDir os (selectiveFn os fls action) path d s =
  (s, if IsDir d then None else Some SkipDir).
Proof.
  intro Hex. destruct d as [n i | n i re ds].
  - rewrite walkDir_File. unfold selectiveFn. rewrite Hex. reflexivity.
  - rewrite walkDir_Dir. unfold selectiveFn. rewrite Hex. reflexivity.
Qed.

Lemma WalkDir_excluded fsys root d s :
  fsys root = inr d ->
  excluded os (ignore fls) root = true ->
  WalkDir os (selectiveFn os fls action) fsys root s = (s, None).
Proof.
  intros Hfs Hex. unfold WalkDir. rewrite Hfs, (walkDir_excluded _ _ _ Hex).
  destruct (IsDir d); reflexivity.
Qed.



(** Two file systems that show the same walk at every root give the
    same scan. *)
Lemma selectiveWalk_roots_ext fsys fsys' roots :
  (forall root s, In root roots ->
     WalkDir os (selectiveFn os fls action) fsys root s =
     WalkDir os (selectiveFn os fls action) fsys' root s) ->
  forall s, selectiveWalk_roots os fls fsys action roots s =
            selectiveWalk_roots os fls fsys' action roots s.
Proof.
  induction roots as [| root roots IH]; intros H s; simpl; [reflexivity |].
  rewrite (H root s (or_introl eq_refl)).
  destruct (WalkDir os (selectiveFn os fls action) fsys' root s) as [s' [e |]];
    [reflexivity |].
  apply IH. intros r t Hr. apply H. right. exact Hr.
Qed.

End IgnoreFacts.

(** ** Claims about the scan *)

(** C8. The closure of [findLatestChange] replaces the running maximum
    and the recorded path only when an entry's time is strictly later,
    never on an equal time; so the scan reports the first entry, in
    traversal order, that carries the latest time: every entry visited
    before it is strictly older, every entry after it is not newer. *)
Theorem findLatestChange_keeps_first_of_equal_times os fls fsys :
  (forall path info t f,
      latestAction path info (t, f) =
      (if t <? ModTime info then (ModTime info, path) else (t, f), None)) /\
  (forall path info f,
      latestAction path info (ModTime info, f) = ((ModTime info, f), None)) /\
  (let '(t, f, _) := findLatestChange os fls fsys in
   firstLatest (visited os fls fsys) t f).
Proof.
  split; [| split].
  - intros path info t f. unfold latestAction, After. cbn [fst].
    destruct (t <? ModTime info); reflexivity.
  - intros path info f. unfold latestAction, After. cbn [fst].
    rewrite Z.ltb_irrefl. reflexivity.
  - rewrite findLatestChange_fold.
    destruct (fold_left later (visited os fls fsys) (zeroTime, "")) as [t f] eqn:Hfold.
    apply fold_later_first in Hfold. exact Hfold.
Qed.

(** The scan of C8 on a directory whose files [a] and [b] carry the
    same, latest time: [a], listed first, is reported. *)
Example findLatestChange_tie :
  findLatestChange linux (config ["/work/src"] [])
    (oneRoot "/work/src"
       (Dir "src" (mtime 5) None [File "a" (mtime 7); File "b" (mtime 7); File "c" (mtime 3)]))
  = (7, "/work/src/a", None).
Proof. reflexivity. Qed.

(** C4, as stated, fails: the walk calls the closure on the root itself,
    so the scan of a watch root that is an empty directory returns that
    directory's modification time and path, not the zero values. *)
Lemma empty_directory_scan_reports_the_directory :
  findLatestChange linux (config ["/work/empty"] [])
    (oneRoot "/work/empty" (Dir "empty" (mtime 5) None []))
  = (5, "/work/empty", None) /\
  (5, "/work/empty", @None error) <> (zeroTime, "", None).
Proof. split; [reflexivity | discriminate]. Qed.

(** C4, amended.  A scan that hands no entry to its action returns the
    zero time and the empty path; it does so without an error when every
    watch root exists and is excluded by an ignore rule.  A watch root
    that is an empty directory is itself visited: the scan returns its
    modification time and path (when that time is after the zero Time),
    without an error. *)
Theorem findLatestChange_of_no_entry os fls fsys :
  (visited os fls fsys = [] ->
   fst (findLatestChange os fls fsys) = (zeroTime, "")) /\
  (Forall (fun root => excluded os (ignore fls) root = true /\
                       exists d, fsys root = inr d) (watch fls) ->
   findLatestChange os fls fsys = (zeroTime, "", None)) /\
  (forall root name mt,
      watch fls = [root] ->
      fsys root = inr (Dir name (inr {| ModTime := mt |}) None []) ->
      excluded os (ignore fls) root = false ->
      findLatestChange os fls fsys =
      (if After mt zeroTime then (mt, root) else (zeroTime, ""), None)).
Proof.
  split; [| split].
  - intro Hv. rewrite findLatestChange_fold, Hv. reflexivity.
  - intro Hall. unfold findLatestChange, selectiveWalk.
    assert (H : forall s : Time * string,
               selectiveWalk_roots os fls fsys latestAction (watch fls) s = (s, None)).
    { induction Hall as [| root roots [Hex [d Hd]] _ IH]; intro s; simpl.
      - reflexivity.
      - rewrite (WalkDir_excluded os fls latestAction fsys root d s Hd Hex). apply IH. }
    rewrite H. reflexivity.
  - intros root name mt Hw Hfs Hex.
    unfold findLatestChange, selectiveWalk. rewrite Hw. simpl.
    unfold WalkDir. rewrite Hfs, walkDir_Dir. unfold selectiveFn. rewrite Hex.
    cbn [Info]. unfold latestAction. cbn [ModTime fst].
    destruct (After mt zeroTime); reflexivity.
Qed.

Lemma findLatestChange_of_no_entry_witness :
  findLatestChange linux (config ["/work/build"] ["build"])
    (oneRoot "/work/build" (Dir "build" (mtime 5) None [File "out" (mtime 9)]))
  = (zeroTime, "", None) /\
  findLatestChange linux (config ["/work/empty"] [])
    (oneRoot "/work/empty" (Dir "empty" (mtime 5) None []))
  = (5, "/work/empty", None).
Proof.
  split.
  - apply (proj1 (proj2 (findLatestChange_of_no_entry linux _ _))).
    repeat constructor. eexists. reflexivity.
  - apply (proj2 (proj2 (findLatestChange_of_no_entry linux (config ["/work/empty"] [])
                           (oneRoot "/work/empty" (Dir "empty" (mtime 5) None []))))
             "/work/empty" "empty" 5 eq_refl eq_refl eq_refl).
Defined.



(** ** Where the visited entries come from *)

Section Reach.

Variable os : Platform.
Variable fls : flagState.

Lemma through_Dir path n i re ds q :
  through os (ignore fls) path (Dir n i re ds) q <->
  excluded os (ignore fls) path = false /\
  (q = path \/ throughEntries os (ignore fls) path ds q).
Proof.
  cbn [through]. unfold throughEntries.
  assert (H : (fix any (ds0 : list DirEntry) : Prop :=
                 match ds0 with
                 | [] => False
                 | c :: ds' =>
                     through os (ignore fls) (Join os path (Name c)) c q \/ any ds'
                 end) ds <->
              Exists (fun c => through os (ignore fls) (Join os path (Name c)) c q) ds).
  { induction ds as [| c ds IH].
    - split; [contradiction | intro H; inversion H].
    - rewrite Exists_cons, IH. reflexivity. }
  rewrite H. reflexivity.
Qed.

Local Abbreviation record := (selectiveFn os fls recordAction).

Lemma grows_nil P l e : grows P l (l, e).
Proof. exists []. split; [symmetry; apply app_nil_r | constructor]. Qed.

Lemma grows_weaken (P Q : string -> Prop) l r :
  (forall q, P q -> Q q) -> grows P l r -> grows Q l r.
Proof.
  intros HPQ (new & Heq & Hall). exists new. split; [exact Heq |].
  eapply Forall_impl; [| exact Hall]. intros e. apply HPQ.
Qed.

Lemma grows_trans P l l1 e1 r :
  grows P l (l1, e1) -> grows P l1 r -> grows P l r.
Proof.
  intros (new1 & Heq1 & Hall1) (new2 & Heq2 & Hall2). cbn [fst] in Heq1. subst l1.
  exists (new1 ++ new2)%list. split.
  - rewrite Heq2. symmetry. apply app_assoc.
  - apply Forall_app. split; assumption.
Qed.

Lemma walkEntries_record_through path ds :
  Forall (fun d => forall path l,
            grows (through os (ignore fls) path d) l (walkDir os record path d l)) ds ->
  forall l, grows (throughEntries os (ignore fls) path ds) l
              (walkEntries os record path ds l).
Proof.
  induction 1 as [| d ds Hd _ IH]; intro l; cbn [walkEntries].
  - apply grows_nil.
  - specialize (Hd (Join os path (Name d)) l).
    destruct (walkDir os record (Join os path (Name d)) d l) as [l1 e1].
    assert (H1 : grows (throughEntries os (ignore fls) path (d :: ds)) l (l1, e1)).
    { eapply grows_weaken; [| exact Hd]. intros q Hq. apply Exists_cons_hd, Hq. }
    destruct e1 as [e |].
    + destruct (isSkipDir e);
        (eapply grows_weaken; [| exact H1]); auto.
    + eapply grows_trans; [exact H1 |].
      eapply grows_weaken; [| apply IH]. intros q Hq. apply Exists_cons_tl, Hq.
Qed.

Lemma walkDir_record_through d :
  forall path l, grows (through os (ignore fls) path d) l (walkDir os record path d l).
Proof.
  induction d as [n i | n i re ds IH] using DirEntry_tree_ind; intros path l.
  - rewrite walkDir_File. unfold selectiveFn.
    destruct (excluded os (ignore fls) path) eqn:Hex; [apply grows_nil |].
    cbn [Info]. destruct i as [err | info]; [apply grows_nil |].
    exists [(path, info)]. split; [reflexivity |].
    constructor; [| constructor]. cbn [fst through]. auto.
  - rewrite walkDir_Dir. unfold selectiveFn at 1.
    destruct (excluded os (ignore fls) path) eqn:Hex; [apply grows_nil |].
    cbn [Info]. destruct i as [err | info]; [apply grows_nil |].
    unfold recordAction at 1.
    assert (H1 : grows (through os (ignore fls) path (Dir n (inr info) re ds)) l
                   ((l ++ [(path, info)])%list, @None error)).
    { exists [(path, info)]. split; [reflexivity |].
      constructor; [| constructor]. apply through_Dir. auto. }
    destruct re as [r |].
    + cbn [selectiveFn skippedDir]. destruct (isSkipDir r);
        (eapply grows_weaken; [| exact H1]); auto.
    + eapply grows_trans; [exact H1 |].
      eapply grows_weaken; [| apply walkEntries_record_through, IH].
      intros q Hq. apply through_Dir. auto.
Qed.

Lemma selectiveWalk_roots_record_reachable fsys roots :
  forall l,
    grows (fun q => exists root d,
               In root roots /\ fsys root = inr d /\ through os (ignore fls) root d q)
      l (selectiveWalk_roots os fls fsys recordAction roots l).
Proof.
  induction roots as [| root roots IH]; intro l; cbn [selectiveWalk_roots].
  - apply grows_nil.
  - assert (H1 : grows (fun q => exists r d,
                          In r (root :: roots) /\ fsys r = inr d /\
                          through os (ignore fls) r d q)
                   l (WalkDir os record fsys root l)).
    { unfold WalkDir. destruct (fsys root) as [err | d] eqn:Hfs.
      - cbn [selectiveFn]. destruct (isSkipDir err || isSkipAll err); apply grows_nil.
      - pose proof (walkDir_record_through d root l) as H.
        destruct (walkDir os record root d l) as [l1 e1].
        assert (H' : forall e', grows (fun q => exists r d0,
                          In r (root :: roots) /\ fsys r = inr d0 /\
                          through os (ignore fls) r d0 q) l (l1, e')).
        { intro e'. destruct H as (new & Heq & Hall). exists new. split; [exact Heq |].
          eapply Forall_impl; [| exact Hall]. intros e He.
          exists root, d. split; [left; reflexivity | auto]. }
        destruct e1 as [e |]; [destruct (isSkipDir e || isSkipAll e) |]; apply H'. }
    destruct (WalkDir os record fsys root l) as [l1 [e |]].
    + exact H1.
    + eapply grows_trans; [exact H1 |].
      eapply grows_weaken; [| apply IH].
      intros q (r & d & Hin & Hfs & Hth). exists r, d. split; [right; exact Hin | auto].
Qed.

Lemma visited_reachable fsys :
  Forall (fun e => reachable os fls fsys (fst e)) (visited os fls fsys).
Proof.
  unfold visited, selectiveWalk.
  destruct (selectiveWalk_roots_record_reachable fsys (watch fls) []) as (new & Heq & Hall).
  rewrite Heq. exact Hall.
Qed.

(** An ignore entry that is a suffix of the path, or matches it as a
    glob, excludes the path. *)
Lemma excluded_by_entry E P :
  In E (ignore fls) ->
  HasSuffix P E = true \/ fst (Match os E (ReplaceAll P "\" "/")) = true ->
  excluded os (ignore fls) P = true.
Proof.
  intros Hin Hm. unfold excluded. apply existsb_exists. exists E. split; [exact Hin |].
  apply orb_true_iff. exact Hm.
Qed.

End Reach.

(** The path a scan reports is empty or the path of a visited entry. *)
Lemma findLatestChange_filename os fls fsys :
  snd (fst (findLatestChange os fls fsys)) = "" \/
  In (snd (fst (findLatestChange os fls fsys))) (map fst (visited os fls fsys)).
Proof.
  rewrite findLatestChange_fold. cbn [fst].
  destruct (fold_left later (visited os fls fsys) (zeroTime, "")) as [t f] eqn:Hfold.
  apply fold_later_first in Hfold. cbn [snd].
  destruct Hfold as [(_ & -> & _) | (pre & i & post & Hv & _)]; [left; reflexivity |].
  right. rewrite Hv, map_app. apply in_or_app. right. left. reflexivity.
Qed.

(** C9, as stated, fails for the descendants: the ignore rules are only
    tried on the paths a walk arrives at, so a watch root that lies
    inside a directory whose path ends with an ignore entry is scanned.
    Here [/work/node_modules] ends with the entry [node_modules] and is a
    directory, and the file [index.js] below it is the scan result. *)
Lemma watch_root_inside_ignored_directory_is_scanned :
  In "node_modules" (ignore (config ["/work/node_modules/pkg"] ["node_modules"])) /\
  HasSuffix "/work/node_modules" "node_modules" = true /\
  nestedFs "/work/node_modules" =
    inr (Dir "node_modules" (mtime 5) None
           [Dir "pkg" (mtime 6) None [File "index.js" (mtime 9)]]) /\
  In "/work/node_modules/pkg/index.js"
     (map fst (visited linux (config ["/work/node_modules/pkg"] ["node_modules"]) nestedFs)) /\
  findLatestChange linux (config ["/work/node_modules/pkg"] ["node_modules"]) nestedFs
  = (9, "/work/node_modules/pkg/index.js", None).
Proof.
  split; [left; reflexivity |]. split; [reflexivity |]. split; [reflexivity |].
  split; [| reflexivity]. cbv. auto.
Qed.

(** C9, amended.  For an ignore entry [E] of the configuration and a
    path [P] that ends with [E], or that [E] matches as a glob once the
    backslashes of [P] are replaced by slashes: [P] is never handed to
    the action of a scan and is not the path a scan reports; a walk that
    arrives at [P] returns at once, whatever lies below [P], so nothing
    is reached through [P]; and every visited entry is reached from a
    watch root through paths that no ignore rule excludes.  Entries below
    [P] contribute only when a watch root lies below [P]. *)
Theorem ignored_path_is_never_visited os fls fsys E P :
  In E (ignore fls) ->
  HasSuffix P E = true \/ fst (Match os E (ReplaceAll P "\" "/")) = true ->
  ~ In P (map fst (visited os fls fsys)) /\
  (snd (fst (findLatestChange os fls fsys)) = P -> P = "") /\
  (forall (St : Type) (action : string -> FileInfo -> St -> St * option error) d s,
      walkDir os (selectiveFn os fls action) P d s =
      (s, if IsDir d then None else Some SkipDir)) /\
  (forall d q, ~ through os (ignore fls) P d q) /\
  (forall q, In q (map fst (visited os fls fsys)) -> reachable os fls fsys q).
Proof.
  intros Hin Hm.
  pose proof (excluded_by_entry os fls E P Hin Hm) as Hex.
  assert (Hnot : ~ In P (map fst (visited os fls fsys))).
  { intro HP. apply in_map_iff in HP. destruct HP as (e & <- & He).
    pose proof (visited_not_excluded os fls fsys) as Hall.
    rewrite Forall_forall in Hall. specialize (Hall e He). congruence. }
  split; [exact Hnot |]. split; [| split; [| split]].
  - intro Heq. destruct (findLatestChange_filename os fls fsys) as [H | H].
    + congruence.
    + rewrite Heq in H. contradiction.
  - intros St action d s. apply walkDir_excluded, Hex.
  - intros d q Hth. destruct d; cbn [through] in Hth; destruct Hth as [H _]; congruence.
  - intros q Hq. apply in_map_iff in Hq. destruct Hq as (e & <- & He).
    pose proof (visited_reachable os fls fsys) as Hall.
    rewrite Forall_forall in Hall. apply Hall, He.
Qed.

Lemma ignored_path_is_never_visited_witness :
  ~ In "/work/node_modules"
      (map fst (visited linux (config ["/work"] ["node_modules"])
                  (oneRoot "/work"
                     (Dir "work" (mtime 5) None
                        [File "main.js" (mtime 7);
                         Dir "node_modules" (mtime 8) None [File "index.js" (mtime 9)]])))).
Proof.
  apply (ignored_path_is_never_visited linux (config ["/work"] ["node_modules"])
           _ "node_modules" "/work/node_modules").
  - left. reflexivity.
  - left. reflexivity.
Defined.

(** ** Claims about the command runner *)

(** C2 does not hold of the code for a command that fails to start.
    [execute] returns the error of [cmd.Start()] as it is, never wrapped
    in [startProcessFailureError]; whatever its type ([*exec.Error],
    [*fs.PathError], ...), the type switch takes no fatal case and
    [executeAndHandle] returns true, as it does for a started process
    that exits with a non-zero status. *)
Theorem start_failure_is_not_fatal os fls w cmd filename :
  command os fls = Some cmd ->
  (forall err,
      spawn w cmd = StartFails err ->
      (forall e, err <> ptr_unsupportedOSError e) ->
      (forall e, err <> ptr_startProcessFailureError e) ->
      execute os fls (spawn w) = Some err /\
      snd (executeAndHandle os fls (spawn w) filename) = true) /\
  (forall code,
      spawn w cmd = Waited (Some (ptr_ExitError code)) ->
      snd (executeAndHandle os fls (spawn w) filename) = true).
Proof.
  intro Hc. split.
  - intros err Hs H1 H2.
    assert (He : execute os fls (spawn w) = Some err).
    { unfold execute. rewrite Hc, Hs. reflexivity. }
    split; [exact He |]. unfold executeAndHandle. rewrite He.
    destruct err; try reflexivity.
    + exfalso. eapply H1. reflexivity.
    + exfalso. eapply H2. reflexivity.
    + destruct (negb (code =? 0)); reflexivity.
  - intros code Hs. unfold executeAndHandle, execute. rewrite Hc, Hs.
    destruct (negb (code =? 0)); reflexivity.
Qed.

Lemma start_failure_is_not_fatal_witness :
  snd (executeAndHandle linux (config ["/work/src"] [])
         (spawn (world caseTicker (srcFs 9)
                   (StartFails (ptr_PathError "fork/exec" "/bin/sh" EACCES))))
         "/work/src/a.go") = true /\
  snd (executeAndHandle linux (config ["/work/src"] [])
         (spawn (world caseTicker (srcFs 9) (Waited (Some (ptr_ExitError 2)))))
         "/work/src/a.go") = true.
Proof.
  split.
  - apply (proj1 (start_failure_is_not_fatal linux (config ["/work/src"] [])
                    (world caseTicker (srcFs 9)
                       (StartFails (ptr_PathError "fork/exec" "/bin/sh" EACCES)))
                    _ "/work/src/a.go" eq_refl)
             (ptr_PathError "fork/exec" "/bin/sh" EACCES) eq_refl);
      intros e; discriminate.
  - apply (proj2 (start_failure_is_not_fatal linux (config ["/work/src"] [])
                    (world caseTicker (srcFs 9) (Waited (Some (ptr_ExitError 2))))
                    _ "/work/src/a.go" eq_refl) 2 eq_refl).
Defined.

(** ** Claims about the loop *)

Section LoopFacts.

Variable os : Platform.
Variable fls : flagState.

Lemma run_head ws st : exists rest, run os fls ws st = st :: rest.
Proof. destruct ws; eexists; reflexivity. Qed.

(** One step keeps the stored time or raises it, and keeps [pending]. *)
Lemma step_baseline w st :
  pending st -> baselineStep st (step os fls w st) /\ pending (step os fls w st).
Proof.
  unfold pending, baselineStep, step. intro Hp.
  destruct (at_ st) as [| | latest filename | latest |] eqn:Hat.
  - destruct (executeAndHandle os fls (spawn w) "") as [out [|]];
      cbn [at_ currentLatestModTime]; auto.
  - destruct (ready w).
    + cbn [at_ currentLatestModTime]. auto.
    + destruct (findLatestChange os fls (files w)) as [[latest filename] [e |]].
      * cbn [at_ currentLatestModTime]. auto.
      * unfold After.
        destruct (currentLatestModTime st <? latest) eqn:Hlt;
          cbn [negb at_ currentLatestModTime]; [| auto].
        apply Z.ltb_lt in Hlt. auto.
  - destruct (executeAndHandle os fls (spawn w) filename) as [out [|]];
      cbn [at_ currentLatestModTime]; auto.
  - cbn [at_ currentLatestModTime]. auto.
  - rewrite Hat. auto.
Qed.

Lemma run_sorted ws :
  forall st, pending st ->
    Sorted baselineStep (run os fls ws st) /\
    Sorted Z.le (map currentLatestModTime (run os fls ws st)).
Proof.
  induction ws as [| w ws IH]; intros st Hp; cbn [run map].
  - split; repeat constructor.
  - destruct (step_baseline w st Hp) as [Hb Hp'].
    destruct (IH _ Hp') as [H1 H2].
    destruct (run_head ws (step os fls w st)) as [rest Hrest].
    rewrite Hrest in *. cbn [map] in *.
    split; constructor; auto; constructor; auto.
    destruct Hb as [-> | [_ Hlt]]; lia.
Qed.

End LoopFacts.

(** C7. Along every run of [main] the stored time never decreases: it
    starts as the time returned by the first scan, and from one state to
    the next it is kept, or replaced at the assignment by a strictly
    later one. *)
Theorem baseline_never_decreases os args w0 ws :
  let tr := main os args w0 ws in
  StronglySorted Z.le (map currentLatestModTime tr) /\
  Sorted baselineStep tr /\
  match EnableVirtualTerminal os, processFlags os args with
  | None, inr fls =>
      if firstArgIs args "--help" "-h" || firstArgIs args "--version" "-v" then True
      else
        match findLatestChange os fls (files w0) with
        | (_, _, Some _) => True
        | (t, _, None) =>
            exists rest,
              tr = {| at_ := atFirstExecution; currentLatestModTime := t; printed := [] |}
                   :: rest
        end
  | _, _ => True
  end.
Proof.
  cbv zeta. unfold main.
  destruct (EnableVirtualTerminal os) as [err |];
    [repeat split; repeat constructor |].
  destruct (firstArgIs args "--help" "-h");
    [destruct (processFlags os args); repeat split; repeat constructor |].
  destruct (firstArgIs args "--version" "-v");
    [destruct (processFlags os args); repeat split; repeat constructor |].
  cbn [orb].
  destruct (processFlags os args) as [err | fls].
  - repeat split; repeat constructor.
  - destruct (findLatestChange os fls (files w0)) as [[t f] [e |]].
    + repeat split; repeat constructor.
    + destruct (run_sorted os fls ws
                  {| at_ := atFirstExecution; currentLatestModTime := t; printed := [] |} I)
        as [H1 H2].
      split; [| split].
      * apply Sorted_StronglySorted; [| exact H2]. intros x y z. apply Z.le_trans.
      * exact H1.
      * apply run_head.
Qed.

(** A run of [main]: the first scan finds time 5, the third tick finds
    [a.go] modified at 9. *)
Example baseline_trace :
  map currentLatestModTime
    (main linux ["src"; "-e"; "make"] (world caseTicker (srcFs 3) (Waited None))
       [world caseTicker (srcFs 3) (Waited None);
        world caseTicker (srcFs 3) (Waited None);
        world caseTicker (srcFs 9) (Waited None);
        world caseTicker (srcFs 9) (Waited None);
        world caseTicker (srcFs 9) (Waited None);
        world caseTicker (srcFs 9) (Waited None)])
  = [5; 5; 5; 5; 5; 9; 9].
Proof. reflexivity. Qed.

(** C5, as stated, fails: [main] calls [executeAndHandle] first and
    assigns [currentLatestModTime] after it has returned.  In this run
    the poll finds time 9 while 5 is stored; when the command is about to
    be invoked, and again when it has returned, 5 is still stored. *)
Lemma baseline_still_old_when_command_runs :
  let tr :=
    main linux ["src"; "-e"; "make"] (world caseTicker (srcFs 3) (Waited None))
      [world caseTicker (srcFs 3) (Waited None);
       world caseTicker (srcFs 9) (Waited None);
       world caseTicker (srcFs 9) (Waited None);
       world caseTicker (srcFs 9) (Waited None)] in
  nth_error tr 2 =
    Some {| at_ := atExecute 9 "/work/src/a.go"; currentLatestModTime := 5;
            printed := [FirstExecution; Newline] |} /\
  nth_error tr 3 =
    Some {| at_ := atAssign 9; currentLatestModTime := 5;
            printed := [FirstExecution; Newline; HasChanged "/work/src/a.go"; Newline] |} /\
  nth_error tr 4 =
    Some {| at_ := atSelect; currentLatestModTime := 9;
            printed := [FirstExecution; Newline; HasChanged "/work/src/a.go"; Newline] |}.
Proof. repeat split. Qed.

(** C5, amended.  In a loop iteration whose poll finds a time strictly
    after the stored one, the command is invoked while the old time is
    still stored; the stored time becomes the time found by that poll
    after [executeAndHandle] has returned true, and is left as it was
    when it returns false and [main] returns. *)
Theorem baseline_is_updated_after_the_command os fls w st latest filename :
  at_ st = atSelect ->
  ready w = caseTicker ->
  findLatestChange os fls (files w) = (latest, filename, None) ->
  After latest (currentLatestModTime st) = true ->
  let st1 := step os fls w st in
  at_ st1 = atExecute latest filename /\
  currentLatestModTime st1 = currentLatestModTime st /\
  currentLatestModTime st1 < latest /\
  forall w1,
    let st2 := step os fls w1 st1 in
    currentLatestModTime st2 = currentLatestModTime st /\
    (snd (executeAndHandle os fls (spawn w1) filename) = true ->
     at_ st2 = atAssign latest /\
     forall w2,
       step os fls w2 st2 =
       {| at_ := atSelect; currentLatestModTime := latest; printed := printed st2 |}) /\
    (snd (executeAndHandle os fls (spawn w1) filename) = false ->
     at_ st2 = returned).
Proof.
  intros Hat Hready Hscan Hafter. cbv zeta.
  assert (H1 : step os fls w st =
               {| at_ := atExecute latest filename;
                  currentLatestModTime := currentLatestModTime st;
                  printed := printed st |}).
  { unfold step. rewrite Hat, Hready, Hscan, Hafter. reflexivity. }
  rewrite H1. cbn [at_ currentLatestModTime].
  split; [reflexivity |]. split; [reflexivity |].
  split; [apply Z.ltb_lt; exact Hafter |].
  intro w1.
  assert (H2 : step os fls w1
                 {| at_ := atExecute latest filename;
                    currentLatestModTime := currentLatestModTime st;
                    printed := printed st |} =
               {| at_ := if snd (executeAndHandle os fls (spawn w1) filename)
                         then atAssign latest else returned;
                  currentLatestModTime := currentLatestModTime st;
                  printed := (printed st ++
                              fst (executeAndHandle os fls (spawn w1) filename))%list |}).
  { unfold step. cbn [at_ currentLatestModTime printed].
    destruct (executeAndHandle os fls (spawn w1) filename). reflexivity. }
  rewrite H2. cbn [at_ currentLatestModTime printed].
  split; [reflexivity |]. split.
  - intros ->. split; [reflexivity |]. intro w2. reflexivity.
  - intros ->. reflexivity.
Qed.

Lemma baseline_is_updated_after_the_command_witness :
  currentLatestModTime
    (step linux (config ["/work/src"] []) (world caseTicker (srcFs 9) (Waited None))
       {| at_ := atSelect; currentLatestModTime := 5; printed := [] |}) < 9.
Proof.
  apply (baseline_is_updated_after_the_command linux (config ["/work/src"] [])
           (world caseTicker (srcFs 9) (Waited None))
           {| at_ := atSelect; currentLatestModTime := 5; printed := [] |}
           9 "/work/src/a.go" eq_refl eq_refl eq_refl eq_refl).
Defined.

(** ** Claims about the tick-speed flag *)

(** A count below half of [Granularity], read as nanoseconds, rounds
    to zero. *)
Lemma Round_below_half n :
  0 <= n < 50000000 -> Round n Granularity = 0.
Proof.
  intro Hn. unfold Round, Granularity, Millisecond, lessThanHalf, wrap64.
  cbn [Z.leb Z.mul Z.compare Pos.mul Pos.add Pos.succ].
  rewrite (Z.rem_small n) by lia.
  destruct (n <? 0) eqn:Hneg; [apply Z.ltb_lt in Hneg; lia |].
  rewrite (Z.mod_small n) by lia.
  rewrite (Z.mod_small (n + n)) by lia.
  rewrite (Z.mod_small 100000000) by lia.
  destruct (n + n <? 100000000) eqn:Hlt; [| apply Z.ltb_ge in Hlt; lia].
  replace (n - n + 2 ^ 63) with (2 ^ 63) by lia. reflexivity.
Qed.

(** The loop of [processFlags] on a watch path, tick-speed values below
    50000000 and a command: each value leaves [fls.gran] at 0. *)
Lemma processFlags_loop_small_ticks w c (ticks : list (string * Z)) :
  flags w = None -> isFlagLike w = false ->
  flags c = None -> isFlagLike c = false ->
  Forall (fun sn => flags (fst sn) = None /\ isFlagLike (fst sn) = false /\
                    ParseInt (fst sn) = Some (snd sn) /\ 0 < snd sn < 50000000) ticks ->
  processFlags_loop
    (w :: flat_map (fun sn => ["-t"; fst sn]) ticks ++ ["-e"; c])%list
    flagWatch emptyFlagState =
  inr {| watch := [w]; ignore := []; gran := 0; exec := [c] |}.
Proof.
  intros Hfw Hw Hfc Hc Hticks. cbn [processFlags_loop app]. rewrite Hfw, Hw.
  cbn [watch ignore gran exec emptyFlagState app].
  assert (H : forall cur,
             processFlags_loop
               (flat_map (fun sn => ["-t"; fst sn]) ticks ++ ["-e"; c])%list cur
               {| watch := [w]; ignore := []; gran := 0; exec := [] |} =
             inr {| watch := [w]; ignore := []; gran := 0; exec := [c] |}).
  { induction Hticks as [| [s n] ticks (Hfs & Hs & Hp & Hn) _ IH]; intro cur.
    - cbn [flat_map app processFlags_loop].
      change (flags "-e") with (Some flagExec). cbn iota.
      rewrite Hfc, Hc. reflexivity.
    - cbn [flat_map app processFlags_loop fst snd] in *.
      change (flags "-t") with (Some flagTickSpeed). cbn iota.
      rewrite Hfs, Hs, Hp.
      destruct (n <=? 0) eqn:Hle; [apply Z.leb_le in Hle; lia |].
      cbn [gran negb Z.eqb watch ignore exec].
      rewrite Round_below_half by lia. apply IH. }
  apply H.
Qed.

(** C3 does not hold of the code.  [processFlags] converts the parsed
    number with [time.Duration(num)], a count of nanoseconds, and rounds
    it to a multiple of 100ms: for the help text's own example,
    [--tick-speed 3000], the rounded value is 0, which the code then
    replaces by [Granularity].  The poll interval is 100ms, not 3000ms,
    and so it is for every value below 50000000. *)
Theorem tick_speed_is_read_as_nanoseconds os :
  processFlags os ["src"; "--tick-speed"; "3000"; "-e"; "go test -v ./..."] =
  normalizePaths os
    {| watch := ["src"]; ignore := []; gran := Granularity;
       exec := ["go test -v ./..."] |} /\
  processFlags linux ["src"; "--tick-speed"; "3000"; "-e"; "go test -v ./..."] =
  inr {| watch := ["/work/src"]; ignore := []; gran := 100 * Millisecond;
         exec := ["go test -v ./..."] |} /\
  Round 3000 Granularity = 0 /\
  100 * Millisecond < 3000 * Millisecond /\
  (forall w s n c,
      flags w = None -> isFlagLike w = false ->
      flags c = None -> isFlagLike c = false ->
      flags s = None -> isFlagLike s = false ->
      ParseInt s = Some n -> 0 < n < 50000000 ->
      processFlags os [w; "-t"; s; "-e"; c] =
      normalizePaths os
        {| watch := [w]; ignore := []; gran := Granularity; exec := [c] |}).
Proof.
  repeat split.
  intros w s n c Hfw Hw Hfc Hc Hfs Hs Hp Hn. unfold processFlags.
  assert (H : Forall (fun sn => flags (fst sn) = None /\ isFlagLike (fst sn) = false /\
                                ParseInt (fst sn) = Some (snd sn) /\
                                0 < snd sn < 50000000) [(s, n)])
    by (repeat constructor; cbn [fst snd]; auto; lia).
  apply (processFlags_loop_small_ticks w c _ Hfw Hw Hfc Hc) in H.
  cbn [flat_map app fst] in H. rewrite H. reflexivity.
Qed.

Lemma tick_speed_is_read_as_nanoseconds_witness :
  processFlags linux ["src"; "-t"; "1000"; "-e"; "build.sh"] =
  inr {| watch := ["/work/src"]; ignore := []; gran := 100 * Millisecond;
         exec := ["build.sh"] |}.
Proof.
  rewrite (proj2 (proj2 (proj2 (proj2 (tick_speed_is_read_as_nanoseconds linux))))
             "src" "1000" 1000 "build.sh"
             eq_refl eq_refl eq_refl eq_refl eq_refl eq_refl eq_refl
             (conj eq_refl eq_refl)).
  reflexivity.
Defined.

(** C6 does not hold of the code.  The guard against a second value
    tests [fls.gran != 0], but the first value, read as nanoseconds and
    rounded to a multiple of 100ms, leaves [fls.gran] at 0 unless it is
    at least 50000000: [-t 1000 -t 2000] builds a configuration, without
    the tick-speed-already-set error, and so do any two values below
    50000000.  The error is returned when the first value is that
    large. *)
Theorem tick_speed_set_twice_is_accepted os :
  processFlags os ["src"; "-t"; "1000"; "-t"; "2000"; "-e"; "build.sh"] =
  normalizePaths os
    {| watch := ["src"]; ignore := []; gran := Granularity; exec := ["build.sh"] |} /\
  processFlags linux ["src"; "-t"; "1000"; "-t"; "2000"; "-e"; "build.sh"] =
  inr {| watch := ["/work/src"]; ignore := []; gran := Granularity;
         exec := ["build.sh"] |} /\
  processFlags os ["src"; "-t"; "50000000"; "-t"; "2000"; "-e"; "build.sh"] =
  inl errTickSpeedGranAlreadySet /\
  (forall w s1 n1 s2 n2 c,
      flags w = None -> isFlagLike w = false ->
      flags c = None -> isFlagLike c = false ->
      flags s1 = None -> isFlagLike s1 = false ->
      ParseInt s1 = Some n1 -> 0 < n1 < 50000000 ->
      flags s2 = None -> isFlagLike s2 = false ->
      ParseInt s2 = Some n2 -> 0 < n2 < 50000000 ->
      processFlags os [w; "-t"; s1; "-t"; s2; "-e"; c] =
      normalizePaths os
        {| watch := [w]; ignore := []; gran := Granularity; exec := [c] |}).
Proof.
  repeat split.
  intros w s1 n1 s2 n2 c Hfw Hw Hfc Hc Hf1 Hs1 Hp1 Hn1 Hf2 Hs2 Hp2 Hn2.
  unfold processFlags.
  assert (H : Forall (fun sn => flags (fst sn) = None /\ isFlagLike (fst sn) = false /\
                                ParseInt (fst sn) = Some (snd sn) /\
                                0 < snd sn < 50000000) [(s1, n1); (s2, n2)])
    by (repeat constructor; cbn [fst snd]; auto; lia).
  apply (processFlags_loop_small_ticks w c _ Hfw Hw Hfc Hc) in H.
  cbn [flat_map app fst] in H. rewrite H. reflexivity.
Qed.

Lemma tick_speed_set_twice_is_accepted_witness :
  processFlags linux ["/work/src"; "-t"; "250"; "--tick-speed"; "500"; "--exec"; "make"] =
  inr {| watch := ["/work/src"]; ignore := []; gran := Granularity; exec := ["make"] |} /\
  processFlags linux ["/work/src"; "-t"; "250"; "-t"; "500"; "-e"; "make"] =
  inr {| watch := ["/work/src"]; ignore := []; gran := Granularity; exec := ["make"] |}.
Proof.
  split; [reflexivity |].
  rewrite (proj2 (proj2 (proj2 (tick_speed_set_twice_is_accepted linux)))
             "/work/src" "250" 250 "500" 500 "make"
             eq_refl eq_refl eq_refl eq_refl eq_refl eq_refl eq_refl
             (conj eq_refl eq_refl) eq_refl eq_refl eq_refl (conj eq_refl eq_refl)).
  reflexivity.
Defined.

(** * Further properties *)

(** ** [strconv.ParseInt] and [time.Duration.Round] as [processFlags] uses them *)

Lemma parseDigits_nonneg s :
  forall acc n, 0 <= acc -> parseDigits s acc = Some n -> 0 <= n.
Proof.
  induction s as [| c s IH]; intros acc n Hacc H; simpl in H.
  - inversion H; subst; exact Hacc.
  - unfold digitVal in H.
    destruct ((48 <=? Z.of_N (N_of_ascii c)) && (Z.of_N (N_of_ascii c) <=? 57)) eqn:Hd;
      [| discriminate].
    apply andb_true_iff in Hd. destruct Hd as [H1 H2].
    apply Z.leb_le in H1. apply Z.leb_le in H2.
    eapply IH; [| exact H]. lia.
Qed.

Lemma ParseUint_nonneg s n : ParseUint s = Some n -> 0 <= n.
Proof.
  destruct s; [discriminate |]. unfold ParseUint.
  apply parseDigits_nonneg. lia.
Qed.

Lemma ParseInt_range s n : ParseInt s = Some n -> - 2 ^ 63 <= n < 2 ^ 63.
Proof.
  destruct s as [| c s]; [discriminate |]. unfold ParseInt.
  destruct (ParseUint (if Ascii.eqb c "+" || Ascii.eqb c "-" then s else String c s))
    as [un |] eqn:Hu; [| discriminate].
  apply ParseUint_nonneg in Hu.
  destruct (Ascii.eqb c "-"); cbn [negb andb].
  - destruct (2 ^ 63 <? un) eqn:Hc; [discriminate |].
    apply Z.ltb_ge in Hc. intro H; inversion H; subst. lia.
  - destruct (2 ^ 63 <=? un) eqn:Hc; [discriminate |].
    apply Z.leb_gt in Hc. intro H; inversion H; subst. lia.
Qed.

Lemma ParseInt_negative_isFlagLike s n :
  ParseInt s = Some n -> n < 0 -> isFlagLike s = true.
Proof.
  destruct s as [| c s]; [discriminate |]. unfold ParseInt.
  destruct (ParseUint (if Ascii.eqb c "+" || Ascii.eqb c "-" then s else String c s))
    as [un |] eqn:Hu; [| discriminate].
  apply ParseUint_nonneg in Hu.
  destruct (Ascii.eqb_spec c "-") as [-> | Hne]; cbn [negb andb].
  - intros _ _. unfold isFlagLike, HasPrefix. apply prefix_correct.
    cbn [String.length substring]. destruct s; reflexivity.
  - destruct (2 ^ 63 <=? un); [discriminate |].
    intros H Hn; inversion H; subst. lia.
Qed.

Lemma ParseInt_not_a_flag s n : ParseInt s = Some n -> flags s = None.
Proof.
  intro H. unfold flags.
  repeat match goal with
         | |- context [String.eqb s ?k] =>
             destruct (String.eqb_spec s k) as [-> | _]; [discriminate H |]
         end.
  reflexivity.
Qed.

(** Rounding a non-negative count to [Granularity] gives 0 or at least
    [Granularity], within int64. *)
Lemma Round_Granularity_range d :
  0 <= d < 2 ^ 63 ->
  Round d Granularity = 0 \/ Granularity <= Round d Granularity < 2 ^ 63.
Proof.
  intro Hd. unfold Round, Granularity, Millisecond, lessThanHalf, wrap64,
    maxDuration in *.
  change (100 * 1000000) with 100000000.
  change (2 ^ 63) with 9223372036854775808 in *.
  change (2 ^ 64) with 18446744073709551616.
  cbn [Z.leb Z.compare].
  rewrite Z.rem_mod_nonneg by lia.
  destruct (d <? 0) eqn:Hneg; [apply Z.ltb_lt in Hneg; lia |].
  pose proof (Z.mod_pos_bound d 100000000 ltac:(lia)) as Hr.
  pose proof (Z.div_mod d 100000000 ltac:(lia)) as Hdm.
  set (r := d mod 100000000) in *.
  set (q := d / 100000000) in *.
  assert (Hq : 0 <= q) by (subst q; apply Z.div_pos; lia).
  clearbody r q.
  rewrite (Z.mod_small r) by lia.
  rewrite (Z.mod_small (r + r)) by lia.
  rewrite (Z.mod_small 100000000) by lia.
  destruct (r + r <? 100000000) eqn:Hhalf.
  - rewrite (Z.mod_small (d - r + 9223372036854775808)) by lia.
    destruct (Z.eq_dec q 0); [left | right]; nia.
  - right. apply Z.ltb_ge in Hhalf.
    destruct (Z_lt_dec (d + 100000000) 9223372036854775808) as [Hsmall | Hbig].
    + rewrite (Z.mod_small (d + 100000000 + 9223372036854775808)) by lia.
      rewrite (Z.mod_small (d + 100000000 + 9223372036854775808 - 9223372036854775808 - r
                            + 9223372036854775808)) by lia.
      match goal with
      | |- context [if ?c then _ else _] => destruct c eqn:Hcmp
      end; lia.
    + match goal with
      | |- context [if ?c then _ else _] => destruct c eqn:Hcmp
      end; [| lia].
      apply Z.ltb_lt in Hcmp.
      match type of Hcmp with
      | d < ?a mod ?m - ?c =>
          pose proof (Z.mod_pos_bound a m ltac:(lia)); lia
      end.
Qed.

(** ** [processFlags] and [normalizePaths] *)

(** What the loop of [processFlags] has done when it reaches [exit]. *)
Lemma processFlags_loop_exit args :
  forall cur fls0 fls,
    processFlags_loop args cur fls0 = inr fls ->
    (gran fls0 = 0 \/ Granularity <= gran fls0 < 2 ^ 63 ->
     gran fls = 0 \/ Granularity <= gran fls < 2 ^ 63) /\
    exists pre c rest,
      args = (pre ++ c :: rest)%list /\ exec fls = c :: rest /\ plain c /\
      ((cur = flagExec /\ pre = []) \/
       exists pre' e, pre = (pre' ++ [e])%list /\ flags e = Some flagExec).
Proof.
  induction args as [| arg args IH]; intros cur fls0 fls H; cbn [processFlags_loop] in H.
  - discriminate.
  - destruct (flags arg) as [f |] eqn:Hf.
    + destruct (IH _ _ _ H) as (Hg & pre & c & rest & -> & Hex & Hc & Hpre).
      split; [exact Hg |]. exists (arg :: pre), c, rest.
      repeat split; try assumption; try apply Hc.
      right. destruct Hpre as [[-> ->] | (pre' & e & -> & He)].
      * exists [], arg. split; [reflexivity | exact Hf].
      * exists (arg :: pre'), e. split; [reflexivity | exact He].
    + destruct (isFlagLike arg) eqn:Hl; [discriminate |].
      assert (Hrec : forall cur' fls1,
                 cur' <> flagExec ->
                 (gran fls0 = 0 \/ Granularity <= gran fls0 < 2 ^ 63 ->
                  gran fls1 = 0 \/ Granularity <= gran fls1 < 2 ^ 63) ->
                 processFlags_loop args cur' fls1 = inr fls ->
                 (gran fls0 = 0 \/ Granularity <= gran fls0 < 2 ^ 63 ->
                  gran fls = 0 \/ Granularity <= gran fls < 2 ^ 63) /\
                 exists pre c rest,
                   arg :: args = (pre ++ c :: rest)%list /\ exec fls = c :: rest /\
                   plain c /\
                   ((cur = flagExec /\ pre = []) \/
                    exists pre' e, pre = (pre' ++ [e])%list /\ flags e = Some flagExec)).
      { intros cur' fls1 Hcur Hg1 H1.
        destruct (IH _ _ _ H1) as (Hg & pre & c & rest & -> & Hex & Hc & Hpre).
        split; [auto |]. exists (arg :: pre), c, rest.
        repeat split; try assumption; try apply Hc.
        right. destruct Hpre as [[-> _] | (pre' & e & -> & He)]; [contradiction |].
        exists (arg :: pre'), e. split; [reflexivity | exact He]. }
      destruct cur.
      * apply Hrec in H; [exact H | discriminate | auto].
      * apply Hrec in H; [exact H | discriminate | auto].
      * inversion H; subst; clear H. cbn [gran exec]. split; [auto |].
        exists [], arg, args. repeat split; auto.
      * destruct (ParseInt arg) as [num |] eqn:Hp; [| discriminate].
        destruct (num <=? 0) eqn:Hle; [discriminate |].
        destruct (negb (gran fls0 =? 0)); [discriminate |].
        apply Hrec in H; [exact H | discriminate |].
        intros _. cbn [gran]. apply Round_Granularity_range.
        apply ParseInt_range in Hp. apply Z.leb_gt in Hle. lia.
      * discriminate.
Qed.

(** [normalizePaths] succeeds exactly when every watch path has an
    absolute form and every cleaned ignore entry is a well-formed
    pattern; it then replaces each by that form. *)
Lemma normalizeWatch_inr os ws rs :
  normalizeWatch os ws = inr rs <-> Forall2 (fun w r => Abs os w = inr r) ws rs.
Proof.
  revert rs. induction ws as [| w ws IH]; intro rs; cbn [normalizeWatch].
  - split; [intro H; inversion H; constructor | intro H; inversion H; reflexivity].
  - destruct (Abs os w) as [err | r] eqn:Ha.
    + split; [discriminate | intro H; inversion H; subst; congruence].
    + destruct (normalizeWatch os ws) as [err | rs'] eqn:Hn.
      * split; [discriminate |]. intro H; inversion H; subst.
        apply IH in H4. discriminate.
      * split.
        -- intro H; inversion H; subst. constructor; [exact Ha | apply IH; reflexivity].
        -- intro H; inversion H; subst. apply IH in H4. congruence.
Qed.

Lemma normalizeIgnore_inr os igs rs :
  normalizeIgnore os igs = inr rs <->
  rs = map (Clean os) igs /\
  Forall (fun ig => snd (Match os (Clean os ig) "") = None) igs.
Proof.
  revert rs. induction igs as [| ig igs IH]; intro rs; cbn [normalizeIgnore map].
  - split; [intro H; inversion H; split; [reflexivity | constructor]
           | intros [-> _]; reflexivity].
  - destruct (snd (Match os (Clean os ig) "")) as [err |] eqn:Hm.
    + split; [discriminate |]. intros [_ H]; inversion H; subst. congruence.
    + destruct (normalizeIgnore os igs) as [err | rs'] eqn:Hn.
      * split; [discriminate |]. intros [_ H]; inversion H; subst.
        pose proof (proj2 (IH (map (Clean os) igs)) (conj eq_refl H3)). discriminate.
      * destruct (proj1 (IH rs') eq_refl) as [-> Hall].
        split.
        -- intro H; inversion H; subst. split; [reflexivity | constructor; assumption].
        -- intros [-> _]. reflexivity.
Qed.

(** X1. A configuration that [processFlags] returns has at least one
    watch path and a command, and a poll interval of at least
    [Granularity] that fits a [time.Duration]. *)
Theorem processFlags_builds_a_usable_configuration os args fls :
  processFlags os args = inr fls ->
  watch fls <> [] /\ exec fls <> [] /\ Granularity <= gran fls < 2 ^ 63.
Proof.
  unfold processFlags.
  destruct (processFlags_loop args flagWatch emptyFlagState) as [err | fls1] eqn:Hloop;
    [discriminate |].
  destruct (processFlags_loop_exit _ _ _ _ Hloop)
    as (Hg & pre & c & rest & _ & Hex & _ & _).
  specialize (Hg (or_introl eq_refl)).
  destruct (watch fls1) as [| w ws] eqn:Hw; [discriminate |]. cbn [List.length Nat.eqb].
  unfold normalizePaths.
  assert (Hn : forall fls2,
             watch fls2 = w :: ws -> exec fls2 = c :: rest ->
             Granularity <= gran fls2 < 2 ^ 63 ->
             match normalizeWatch os (watch fls2) with
             | inl err => inl err
             | inr ws0 =>
                 match normalizeIgnore os (ignore fls2) with
                 | inl err => inl err
                 | inr igs =>
                     inr {| watch := ws0; ignore := igs; gran := gran fls2;
                            exec := exec fls2 |}
                 end
             end = inr fls ->
             watch fls <> [] /\ exec fls <> [] /\ Granularity <= gran fls < 2 ^ 63).
  { intros fls2 Hw2 Hex2 Hg2.
    destruct (normalizeWatch os (watch fls2)) as [err | ws0] eqn:Hnw; [discriminate |].
    destruct (normalizeIgnore os (ignore fls2)) as [err | igs]; [discriminate |].
    intro H; inversion H; subst; clear H. cbn [watch exec gran].
    apply normalizeWatch_inr in Hnw. rewrite Hw2 in Hnw. inversion Hnw; subst.
    rewrite Hex2. repeat split; try discriminate; lia. }
  destruct (gran fls1 =? 0) eqn:Hz.
  - apply Hn; cbn [watch exec gran]; auto.
    unfold Granularity, Millisecond. lia.
  - apply Hn; auto. apply Z.eqb_neq in Hz. lia.
Qed.

Lemma processFlags_builds_a_usable_configuration_witness :
  Granularity <=
  gran {| watch := ["/work/src"]; ignore := [".git"]; gran := 200000000;
          exec := ["go"; "test"] |} < 2 ^ 63.
Proof.
  apply (processFlags_builds_a_usable_configuration linux
           ["src"; "-i"; ".git"; "-t"; "150000000"; "-e"; "go"; "test"]).
  reflexivity.
Defined.

(** X2. The command of a configuration is the tail of the argument list
    taken as it is: the arguments split into a part that ends with an
    exec flag and the command, which starts with a plain argument;
    whatever follows that argument, flags included, belongs to the
    command. *)
Theorem processFlags_takes_the_command_verbatim os args fls :
  processFlags os args = inr fls ->
  exists pre e c rest,
    args = (pre ++ e :: c :: rest)%list /\
    flags e = Some flagExec /\ plain c /\ exec fls = c :: rest.
Proof.
  unfold processFlags.
  destruct (processFlags_loop args flagWatch emptyFlagState) as [err | fls1] eqn:Hloop;
    [discriminate |].
  destruct (processFlags_loop_exit _ _ _ _ Hloop)
    as (_ & pre & c & rest & -> & Hex & Hc & Hpre).
  destruct Hpre as [[Hcur _] | (pre' & e & -> & He)]; [discriminate |].
  destruct (List.length (watch fls1) =? 0)%nat; [discriminate |].
  assert (Hn : forall fls2, exec fls2 = c :: rest ->
                 normalizePaths os fls2 = inr fls -> exec fls = c :: rest).
  { intros fls2 Hex2. unfold normalizePaths.
    destruct (normalizeWatch os (watch fls2)); [discriminate |].
    destruct (normalizeIgnore os (ignore fls2)); [discriminate |].
    intro H; inversion H; subst. exact Hex2. }
  intro H. exists pre', e, c, rest. rewrite <- app_assoc.
  repeat split; try assumption; try apply Hc.
  destruct (gran fls1 =? 0); eapply Hn; try exact H; assumption.
Qed.

Lemma processFlags_takes_the_command_verbatim_witness :
  exists pre e c rest,
    ["src"; "-e"; "go"; "test"; "-v"; "-t"; "x"] = (pre ++ e :: c :: rest)%list /\
    flags e = Some flagExec /\ plain c /\
    exec {| watch := ["/work/src"]; ignore := []; gran := Granularity;
            exec := ["go"; "test"; "-v"; "-t"; "x"] |} = c :: rest.
Proof.
  apply (processFlags_takes_the_command_verbatim linux
           ["src"; "-e"; "go"; "test"; "-v"; "-t"; "x"]).
  reflexivity.
Defined.

(** X3. [normalizePaths] succeeds exactly when [filepath.Abs] succeeds on
    every watch path and every cleaned ignore entry is a well-formed
    pattern; the result holds the absolute watch paths and the cleaned
    ignore entries in their order, with the interval and the command
    unchanged. *)
Theorem normalizePaths_spec os fls fls' :
  normalizePaths os fls = inr fls' <->
  Forall2 (fun w r => Abs os w = inr r) (watch fls) (watch fls') /\
  ignore fls' = map (Clean os) (ignore fls) /\
  Forall (fun ig => snd (Match os (Clean os ig) "") = None) (ignore fls) /\
  gran fls' = gran fls /\ exec fls' = exec fls.
Proof.
  unfold normalizePaths. split.
  - destruct (normalizeWatch os (watch fls)) as [err | ws] eqn:Hw; [discriminate |].
    destruct (normalizeIgnore os (ignore fls)) as [err | igs] eqn:Hi; [discriminate |].
    intro H; inversion H; subst; clear H. cbn [watch ignore gran exec].
    apply normalizeWatch_inr in Hw. apply normalizeIgnore_inr in Hi.
    destruct Hi as [-> Hall]. auto.
  - intros (Hw & Hi & Hall & Hg & He).
    apply normalizeWatch_inr in Hw. rewrite Hw.
    rewrite (proj2 (normalizeIgnore_inr os (ignore fls) (map (Clean os) (ignore fls)))
               (conj eq_refl Hall)).
    destruct fls' as [w' i' g' e']. cbn [watch ignore gran exec] in *. subst.
    reflexivity.
Qed.

(** While only watch flags, ignore flags and plain arguments come, the
    loop of [processFlags] goes on, leaves the interval and the command
    alone and stays in the watch or ignore state. *)
Lemma processFlags_loop_collecting pre :
  Forall collecting pre ->
  forall cur fls,
    cur = flagWatch \/ cur = flagIgnore ->
    exists cur' fls',
      (cur' = flagWatch \/ cur' = flagIgnore) /\ gran fls' = gran fls /\
      forall rest,
        processFlags_loop (pre ++ rest) cur fls = processFlags_loop rest cur' fls'.
Proof.
  induction 1 as [| arg pre Harg _ IH]; intros cur fls Hcur.
  - exists cur, fls. auto.
  - destruct Harg as [Hf | [Hf | [Hf Hl]]].
    + destruct (IH flagWatch fls (or_introl eq_refl)) as (cur' & fls' & Hc & Hg & Hr).
      exists cur', fls'. repeat split; auto. intro rest.
      cbn [app processFlags_loop]. rewrite Hf. apply Hr.
    + destruct (IH flagIgnore fls (or_intror eq_refl)) as (cur' & fls' & Hc & Hg & Hr).
      exists cur', fls'. repeat split; auto. intro rest.
      cbn [app processFlags_loop]. rewrite Hf. apply Hr.
    + destruct Hcur as [-> | ->].
      * destruct (IH flagWatch
                    {| watch := watch fls ++ [arg]; ignore := ignore fls;
                       gran := gran fls; exec := exec fls |} (or_introl eq_refl))
          as (cur' & fls' & Hc & Hg & Hr).
        exists cur', fls'. repeat split; auto. intro rest.
        cbn [app processFlags_loop]. rewrite Hf, Hl. apply Hr.
      * destruct (IH flagIgnore
                    {| watch := watch fls; ignore := ignore fls ++ [arg];
                       gran := gran fls; exec := exec fls |} (or_intror eq_refl))
          as (cur' & fls' & Hc & Hg & Hr).
        exists cur', fls'. repeat split; auto. intro rest.
        cbn [app processFlags_loop]. rewrite Hf, Hl. apply Hr.
Qed.

(** X4. An argument that starts with [-] and is no flag of the map,
    met while watch and ignore paths are collected, makes [processFlags]
    fail with the unknown-flag error, whatever the platform and whatever
    follows it. *)
Theorem processFlags_rejects_an_unknown_flag os pre f rest :
  Forall collecting pre ->
  flags f = None -> isFlagLike f = true ->
  processFlags os (pre ++ f :: rest) = inl (errUnknownFlag f).
Proof.
  intros Hpre Hf Hl. unfold processFlags.
  destruct (processFlags_loop_collecting pre Hpre flagWatch emptyFlagState
              (or_introl eq_refl)) as (cur' & fls' & _ & _ & Hr).
  rewrite Hr. cbn [processFlags_loop]. rewrite Hf, Hl. reflexivity.
Qed.

Lemma processFlags_rejects_an_unknown_flag_witness :
  processFlags linux (["src"; "-i"; ".git"] ++ "--help" :: ["-e"; "make"]) =
  inl (errUnknownFlag "--help").
Proof.
  apply processFlags_rejects_an_unknown_flag; [| reflexivity | reflexivity].
  repeat (apply Forall_cons; [unfold collecting, plain; vm_compute; auto |]).
  apply Forall_nil.
Defined.

(** X5. What [processFlags] says about the value after a tick-speed
    flag: a plain value that is no number fails to parse; a negative
    number is rejected as an unknown flag, since it starts with [-]; only
    a value that parses to 0 gives the must-be-positive error; a positive
    number followed by another plain argument gives the
    one-argument-only error. *)
Theorem processFlags_tick_speed_errors os pre s rest :
  Forall collecting pre ->
  (plain s -> ParseInt s = None ->
   processFlags os (pre ++ "-t" :: s :: rest) = inl errFailedToParseMilliseconds) /\
  (forall n, ParseInt s = Some n -> n < 0 ->
   processFlags os (pre ++ "-t" :: s :: rest) = inl (errUnknownFlag s)) /\
  (isFlagLike s = false -> ParseInt s = Some 0 ->
   processFlags os (pre ++ "-t" :: s :: rest) = inl errTickSpeedNonPositive) /\
  (forall n t rest', plain s -> ParseInt s = Some n -> 0 < n ->
   plain t -> rest = t :: rest' ->
   processFlags os (pre ++ "-t" :: s :: rest) = inl errArgAfterTickSpeedFlag).
Proof.
  intro Hpre. unfold processFlags.
  destruct (processFlags_loop_collecting pre Hpre flagWatch emptyFlagState
              (or_introl eq_refl)) as (cur' & fls' & _ & Hg & Hr).
  rewrite Hr. cbn [processFlags_loop].
  change (flags "-t") with (Some flagTickSpeed). cbn iota.
  cbn [gran emptyFlagState] in Hg.
  split; [| split; [| split]].
  - intros [Hf Hl] Hp. rewrite Hf, Hl, Hp. reflexivity.
  - intros n Hp Hn. rewrite (ParseInt_not_a_flag _ _ Hp).
    rewrite (ParseInt_negative_isFlagLike _ _ Hp Hn). reflexivity.
  - intros Hl Hp. rewrite (ParseInt_not_a_flag _ _ Hp), Hl, Hp. reflexivity.
  - intros n t rest' [Hf Hl] Hp Hn [Hft Hlt] ->. rewrite Hf, Hl, Hp.
    destruct (n <=? 0) eqn:Hle; [apply Z.leb_le in Hle; lia |].
    rewrite Hg. cbn [Z.eqb negb processFlags_loop]. rewrite Hft, Hlt. reflexivity.
Qed.

Lemma processFlags_tick_speed_errors_witness :
  processFlags linux (["src"] ++ "-t" :: "-250" :: ["-e"; "make"]) =
  inl (errUnknownFlag "-250") /\
  processFlags linux (["src"] ++ "-t" :: "+0" :: ["-e"; "make"]) =
  inl errTickSpeedNonPositive.
Proof.
  assert (H : Forall collecting ["src"]).
  { apply Forall_cons; [| apply Forall_nil]. right. right. split; reflexivity. }
  split.
  - apply (proj1 (proj2 (processFlags_tick_speed_errors linux ["src"] "-250"
                           ["-e"; "make"] H)) (-250)); [reflexivity | lia].
  - apply (proj1 (proj2 (proj2 (processFlags_tick_speed_errors linux ["src"] "+0"
                                  ["-e"; "make"] H)))); reflexivity.
Defined.

(** ** The ignore rules *)

Lemma string_length_append a b :
  String.length (a ++ b) = (String.length a + String.length b)%nat.
Proof. induction a as [| c a IH]; simpl; [reflexivity | rewrite IH; reflexivity]. Qed.

Lemma substring_all s : substring 0 (String.length s) s = s.
Proof. induction s as [| c s IH]; simpl; [reflexivity | rewrite IH; reflexivity]. Qed.

Lemma substring_append_tail p e :
  substring (String.length p) (String.length e) (p ++ e) = e.
Proof. induction p as [| c p IH]; simpl; [apply substring_all | exact IH]. Qed.

Lemma substring_split s :
  forall n, (n <= String.length s)%nat ->
    s = substring 0 n s ++ substring n (String.length s - n) s.
Proof.
  induction s as [| c s IH]; intros n Hn.
  - destruct n; reflexivity.
  - destruct n as [| n]; simpl.
    + rewrite substring_all. reflexivity.
    + simpl in Hn. rewrite <- IH by lia. reflexivity.
Qed.

(** [HasSuffix] holds exactly of the strings that end with the suffix. *)
Lemma HasSuffix_iff s suffix :
  HasSuffix s suffix = true <-> exists p, s = p ++ suffix.
Proof.
  unfold HasSuffix. split.
  - intro H. apply andb_true_iff in H. destruct H as [Hlen Heq].
    apply Nat.leb_le in Hlen. apply String.eqb_eq in Heq.
    exists (substring 0 (String.length s - String.length suffix) s).
    pose proof (substring_split s (String.length s - String.length suffix)
                  ltac:(lia)) as Hs.
    replace (String.length s - (String.length s - String.length suffix))%nat
      with (String.length suffix) in Hs by lia.
    rewrite Heq in Hs. exact Hs.
  - intros [p ->]. rewrite string_length_append. apply andb_true_iff. split.
    + apply Nat.leb_le. lia.
    + replace (String.length p + String.length suffix - String.length suffix)%nat
        with (String.length p) by lia.
      rewrite substring_append_tail. apply String.eqb_refl.
Qed.

(** X6. A path is excluded exactly when some ignore entry is a textual
    suffix of it, wherever in a file name that suffix starts, or matches
    the whole path as a pattern once backslashes are replaced by
    slashes. *)
Theorem excluded_spec os ign path :
  excluded os ign path = true <->
  exists E, In E ign /\
            ((exists p, path = p ++ E) \/
             fst (Match os E (ReplaceAll path "\" "/")) = true).
Proof.
  unfold excluded. rewrite existsb_exists. split.
  - intros (E & Hin & H). exists E. split; [exact Hin |].
    apply orb_true_iff in H. destruct H as [H | H]; [left | right; exact H].
    apply HasSuffix_iff, H.
  - intros (E & Hin & H). exists E. split; [exact Hin |].
    apply orb_true_iff. destruct H as [H | H]; [left | right; exact H].
    apply HasSuffix_iff, H.
Qed.

(** The entry [.git] also excludes a file whose name merely ends with
    it. *)
Example excluded_inside_a_name :
  excluded linux [".git"] "/work/src/notes.git" = true.
Proof. reflexivity. Qed.

(** ** More on the walk *)

Section WalkMore.

Variable os : Platform.
Variable fls : flagState.
Context {St : Type}.
Variable action : string -> FileInfo -> St -> St * option error.

Local Abbreviation fn := (selectiveFn os fls action).

(** An excluded directory among the entries of its parent is passed
    over and the loop goes on with the next entry. *)
Lemma walkEntries_excluded_dir path pre n i re ds post s :
  excluded os (ignore fls) (Join os path n) = true ->
  walkEntries os fn path (pre ++ Dir n i re ds :: post)%list s =
  walkEntries os fn path (pre ++ post)%list s.
Proof.
  intro Hex. revert s. induction pre as [| d pre IH]; intro s;
    cbn [app walkEntries Name].
  - rewrite (walkDir_excluded os fls action _ _ _ Hex). reflexivity.
  - destruct (walkDir os fn (Join os path (Name d)) d s) as [s' [e |]];
      [reflexivity | apply IH].
Qed.

Lemma agree_Dir path n i re ds d' :
  excluded os (ignore fls) path = false ->
  agree os (ignore fls) path (Dir n i re ds) d' <->
  exists n' ds',
    d' = Dir n' i re ds' /\ agreeEntries os (ignore fls) path ds ds'.
Proof.
  intro Hex. cbn [agree]. rewrite Hex.
  assert (H : forall ds',
             (fix all (ds0 ds'0 : list DirEntry) : Prop :=
                match ds0, ds'0 with
                | [], [] => True
                | c :: r, c' :: r' =>
                    Name c = Name c' /\
                    agree os (ignore fls) (Join os path (Name c)) c c' /\ all r r'
                | _, _ => False
                end) ds ds' <->
             agreeEntries os (ignore fls) path ds ds').
  { unfold agreeEntries. induction ds as [| c r IH]; intros [| c' r'].
    - split; [constructor | trivial].
    - split; [contradiction | intro H; inversion H].
    - split; [contradiction | intro H; inversion H].
    - rewrite IH. split.
      + intros (H1 & H2 & H3). constructor; auto.
      + intro H0; inversion H0; subst. tauto. }
  destruct d' as [n' i' | n' i' re' ds'].
  - split; [contradiction | intros (? & ? & Heq & _); discriminate].
  - rewrite H. split.
    + intros (-> & -> & Ha). exists n', ds'. auto.
    + intros (n2 & ds2 & Heq & Ha). inversion Heq; subst. auto.
Qed.

(** Trees that agree outside the excluded paths are walked alike. *)
Lemma walkDir_agree d :
  forall d' path s,
    agree os (ignore fls) path d d' ->
    walkDir os fn path d s = walkDir os fn path d' s.
Proof.
  induction d as [n i | n i re ds IH] using DirEntry_tree_ind; intros d' path s Ha.
  - destruct (excluded os (ignore fls) path) eqn:Hex.
    + cbn [agree] in Ha. rewrite Hex in Ha.
      rewrite !(walkDir_excluded os fls action _ _ _ Hex), Ha. reflexivity.
    + cbn [agree] in Ha. rewrite Hex in Ha.
      destruct d' as [n' i' | n' i' re' ds']; [| contradiction]. subst i'.
      rewrite !walkDir_File. reflexivity.
  - destruct (excluded os (ignore fls) path) eqn:Hex.
    + cbn [agree] in Ha. rewrite Hex in Ha.
      rewrite !(walkDir_excluded os fls action _ _ _ Hex), Ha. reflexivity.
    + apply (agree_Dir _ _ _ _ _ _ Hex) in Ha. destruct Ha as (n' & ds' & -> & Ha).
      rewrite !walkDir_Dir.
      change (fn path (Visit (Dir n' i re ds')) s)
        with (fn path (Visit (Dir n i re ds)) s).
      destruct (fn path (Visit (Dir n i re ds)) s) as [s1 [e |]]; [reflexivity |].
      assert (Hre : (match re with
                     | None => (s1, None)
                     | Some r => fn path (Failed (Some (Dir n i re ds)) r) s1
                     end) =
                    (match re with
                     | None => (s1, None)
                     | Some r => fn path (Failed (Some (Dir n' i re ds')) r) s1
                     end)) by (destruct re; reflexivity).
      rewrite <- Hre.
      destruct (match re with
                | None => (s1, None)
                | Some r => fn path (Failed (Some (Dir n i re ds)) r) s1
                end) as [s2 [e |]]; [reflexivity |].
      clear Hre. revert s2. unfold agreeEntries in Ha.
      induction Ha as [| c c' r r' [Hname Hc] _ IHr]; intro s2; [reflexivity |].
      inversion IH as [| ? ? IHc IHrest]; subst.
      cbn [walkEntries]. rewrite <- Hname, (IHc c' _ s2 Hc).
      destruct (walkDir os fn (Join os path (Name c)) c' s2) as [s3 [e |]];
        [reflexivity | apply IHr, IHrest].
Qed.

(** On a tree read without an error, with an action that returns no
    error, the walk returns no error; a file may hand [SkipDir] to the
    loop over its parent's entries. *)
Lemma walkDir_healthy d :
  (forall p i s, snd (action p i s) = None) ->
  healthy d = true ->
  forall path s,
    snd (walkDir os fn path d s) = None \/
    (IsDir d = false /\ snd (walkDir os fn path d s) = Some SkipDir).
Proof.
  intro Hact.
  induction d as [n i | n i re ds IH] using DirEntry_tree_ind; intros Hh path s.
  - rewrite walkDir_File. unfold selectiveFn.
    destruct (excluded os (ignore fls) path); [right; auto |].
    cbn [Info]. destruct i as [err | info]; [discriminate |]. left. apply Hact.
  - left. rewrite walkDir_Dir. unfold selectiveFn at 1.
    destruct (excluded os (ignore fls) path); [reflexivity |].
    cbn [Info]. destruct i as [err | info]; [discriminate |].
    destruct re as [r |]; [discriminate |]. cbn [healthy] in Hh.
    pose proof (Hact path info s) as Ha.
    destruct (action path info s) as [s1 e1]. cbn [snd] in Ha. subst e1.
    rewrite forallb_forall in Hh. revert s1.
    induction IH as [| c r Hc _ IHr]; intro s1; [reflexivity |].
    cbn [walkEntries].
    destruct (Hc (Hh c (or_introl eq_refl)) (Join os path (Name c)) s1)
      as [H | [_ H]];
      destruct (walkDir os fn (Join os path (Name c)) c s1) as [s2 e2];
      cbn [snd] in H; subst e2.
    + apply IHr. intros x Hx. apply Hh. right. exact Hx.
    + reflexivity.
Qed.

End WalkMore.

(** ** More on the scan *)

Section ScanMore.

Variable os : Platform.
Variable fls : flagState.

Lemma selectiveWalk_roots_app {St : Type}
  (action : string -> FileInfo -> St -> St * option error) fsys r1 r2 :
  forall s,
    selectiveWalk_roots os fls fsys action (r1 ++ r2) s =
    let '(s1, e) := selectiveWalk_roots os fls fsys action r1 s in
    match e with
    | Some e' => (s1, Some e')
    | None => selectiveWalk_roots os fls fsys action r2 s1
    end.
Proof.
  induction r1 as [| root r1 IH]; intro s; cbn [app selectiveWalk_roots].
  - reflexivity.
  - destruct (WalkDir os (selectiveFn os fls action) fsys root s) as [s1 [e |]];
      [reflexivity | apply IH].
Qed.

(** The walk of a root never returns one of the two sentinels. *)
Lemma WalkDir_no_sentinel {St : Type} (fn : WalkDirFunc St) fsys root s e :
  snd (WalkDir os fn fsys root s) = Some e -> isSkipDir e || isSkipAll e = false.
Proof.
  unfold WalkDir.
  destruct (match fsys root with
            | inl err => fn root (Failed None err) s
            | inr d => walkDir os fn root d s
            end) as [s1 [e1 |]]; [| discriminate].
  destruct (isSkipDir e1 || isSkipAll e1) eqn:Hs; [discriminate |].
  intro H; inversion H; subst. exact Hs.
Qed.

Lemma selectiveWalk_roots_no_sentinel {St : Type}
  (action : string -> FileInfo -> St -> St * option error) fsys roots :
  forall s e,
    snd (selectiveWalk_roots os fls fsys action roots s) = Some e ->
    isSkipDir e || isSkipAll e = false.
Proof.
  induction roots as [| root roots IH]; intros s e; cbn [selectiveWalk_roots].
  - discriminate.
  - pose proof (WalkDir_no_sentinel (selectiveFn os fls action) fsys root s) as Hw.
    destruct (WalkDir os (selectiveFn os fls action) fsys root s) as [s1 [e1 |]].
    + intro H; inversion H; subst. apply Hw. reflexivity.
    + apply IH.
Qed.

(** With no exclusion, the recording walk of a tree read without an
    error lists the tree. *)
Lemma walkDir_record_all d :
  (forall p, excluded os (ignore fls) p = false) ->
  healthy d = true ->
  forall path l,
    walkDir os (selectiveFn os fls recordAction) path d l =
    ((l ++ entriesOf os path d)%list, None).
Proof.
  intro Hex.
  induction d as [n i | n i re ds IH] using DirEntry_tree_ind; intros Hh path l.
  - rewrite walkDir_File. unfold selectiveFn. rewrite Hex. cbn [Info entriesOf].
    destruct i as [err | info]; [discriminate |].
    unfold recordAction. rewrite app_nil_r. reflexivity.
  - rewrite walkDir_Dir. unfold selectiveFn at 1. rewrite Hex. cbn [Info entriesOf].
    destruct i as [err | info]; [discriminate |].
    destruct re as [r |]; [discriminate |]. cbn [healthy] in Hh.
    unfold recordAction at 1. rewrite forallb_forall in Hh.
    rewrite app_assoc.
    generalize (l ++ [(path, info)])%list. clear l.
    induction IH as [| c r Hc _ IHr]; intro l; cbn [walkEntries flat_map].
    + rewrite app_nil_r. reflexivity.
    + rewrite (Hc (Hh c (or_introl eq_refl))).
      rewrite IHr by (intros x Hx; apply Hh; right; exact Hx).
      rewrite app_assoc. reflexivity.
Qed.

End ScanMore.

Lemma findLatestChange_error os fls fsys :
  snd (findLatestChange os fls fsys) =
  snd (selectiveWalk os fls fsys latestAction (zeroTime, "")).
Proof.
  unfold findLatestChange.
  destruct (selectiveWalk os fls fsys latestAction (zeroTime, "")) as [[t f] e].
  reflexivity.
Qed.

Lemma selectiveWalk_roots_healthy os fls {St : Type}
  (action : string -> FileInfo -> St -> St * option error) fsys roots :
  (forall p i s, snd (action p i s) = None) ->
  Forall (fun root => exists d, fsys root = inr d /\ healthy d = true) roots ->
  forall s, snd (selectiveWalk_roots os fls fsys action roots s) = None.
Proof.
  intros Hact Hall. induction Hall as [| root roots (d & Hd & Hh) _ IH]; intro s;
    cbn [selectiveWalk_roots]; [reflexivity |].
  assert (Hw : snd (WalkDir os (selectiveFn os fls action) fsys root s) = None).
  { unfold WalkDir. rewrite Hd.
    destruct (walkDir_healthy os fls action d Hact Hh root s) as [H | [_ H]];
      destruct (walkDir os (selectiveFn os fls action) root d s) as [s1 e1];
      cbn [snd] in H; subst e1; reflexivity. }
  destruct (WalkDir os (selectiveFn os fls action) fsys root s) as [s1 e1].
  cbn [snd] in Hw. subst e1. apply IH.
Qed.

(** X7. A scan fails only when the file system does: if every watch
    root exists and everything below is read without an error,
    [findLatestChange] returns no error, whatever the ignore rules. *)
Theorem scan_of_a_readable_file_system_succeeds os fls fsys :
  Forall (fun root => exists d, fsys root = inr d /\ healthy d = true) (watch fls) ->
  snd (findLatestChange os fls fsys) = None.
Proof.
  intro Hall. rewrite findLatestChange_error. unfold selectiveWalk.
  apply selectiveWalk_roots_healthy; [| exact Hall].
  intros p i s. unfold latestAction. destruct (After (ModTime i) (fst s)); reflexivity.
Qed.

Lemma scan_of_a_readable_file_system_succeeds_witness :
  snd (findLatestChange linux (config ["/work/src"] ["a.go"]) (srcFs 9)) = None.
Proof.
  apply scan_of_a_readable_file_system_succeeds.
  repeat constructor. eexists. split; reflexivity.
Defined.

(** X8. Without ignore rules, on watch roots that exist and are read
    without an error, the scan hands every entry of every root to its
    action, directories included, parents before children, root after
    root; its result is the running maximum over that list. *)
Theorem scan_without_ignore_rules_visits_every_entry os fls fsys :
  ignore fls = [] ->
  Forall (fun root => exists d, fsys root = inr d /\ healthy d = true) (watch fls) ->
  visited os fls fsys = allEntries os fsys (watch fls) /\
  findLatestChange os fls fsys =
  (fold_left later (allEntries os fsys (watch fls)) (zeroTime, ""), None).
Proof.
  intros Hign Hall.
  assert (Hex : forall p, excluded os (ignore fls) p = false)
    by (intro p; rewrite Hign; reflexivity).
  assert (H : forall l,
             selectiveWalk_roots os fls fsys recordAction (watch fls) l =
             ((l ++ allEntries os fsys (watch fls))%list, None)).
  { induction Hall as [| root roots (d & Hd & Hh) _ IH]; intro l;
      cbn [selectiveWalk_roots allEntries flat_map].
    - rewrite app_nil_r. reflexivity.
    - unfold WalkDir. rewrite Hd, (walkDir_record_all os fls d Hex Hh).
      rewrite IH. unfold allEntries. rewrite app_assoc. reflexivity. }
  assert (Hv : visited os fls fsys = allEntries os fsys (watch fls)).
  { unfold visited, selectiveWalk. rewrite H. reflexivity. }
  split; [exact Hv |].
  rewrite findLatestChange_fold, Hv. unfold selectiveWalk. rewrite H. reflexivity.
Qed.

Lemma scan_without_ignore_rules_visits_every_entry_witness :
  visited linux (config ["/work/src"] []) (srcFs 9) =
  [("/work/src", {| ModTime := 5 |}); ("/work/src/a.go", {| ModTime := 9 |})].
Proof.
  apply (scan_without_ignore_rules_visits_every_entry linux
           (config ["/work/src"] []) (srcFs 9) eq_refl).
  repeat constructor. eexists. split; reflexivity.
Defined.

(** X9. The error of a scan is never one of the walk's control values
    [SkipDir] and [SkipAll]: they end a directory or a walk and are not
    reported to [main]. *)
Theorem scan_error_is_never_a_sentinel os fls fsys e :
  snd (findLatestChange os fls fsys) = Some e -> e <> SkipDir /\ e <> SkipAll.
Proof.
  rewrite findLatestChange_error. unfold selectiveWalk. intro H.
  apply selectiveWalk_roots_no_sentinel in H.
  split; intros ->; discriminate.
Qed.

Lemma scan_error_is_never_a_sentinel_witness :
  ptr_PathError "lstat" "/work/gone" ENOENT <> SkipDir /\
  ptr_PathError "lstat" "/work/gone" ENOENT <> SkipAll.
Proof.
  apply (scan_error_is_never_a_sentinel linux (config ["/work/gone"] []) (srcFs 9)).
  reflexivity.
Defined.

(** X10. The watch roots are scanned in their order, and a root that
    [os.Lstat] cannot read ends the scan with that error: what the roots
    before it gave is kept, the roots after it are not visited. *)
Theorem unreadable_root_ends_the_scan os fls fsys pre root post err :
  watch fls = (pre ++ root :: post)%list ->
  fsys root = inl err ->
  isSkipDir err || isSkipAll err = false ->
  snd (findLatestChange os (withWatch fls pre) fsys) = None ->
  findLatestChange os fls fsys =
  (fst (findLatestChange os (withWatch fls pre) fsys), Some err) /\
  visited os fls fsys = visited os (withWatch fls pre) fsys.
Proof.
  intros Hw Hfs Hs Hpre.
  assert (Hsame : forall (St : Type)
                    (action : string -> FileInfo -> St -> St * option error) roots s,
             selectiveWalk_roots os (withWatch fls pre) fsys action roots s =
             selectiveWalk_roots os fls fsys action roots s).
  { intros St action roots. induction roots as [| r roots IH]; intro s;
      cbn [selectiveWalk_roots]; [reflexivity |].
    change (selectiveFn os (withWatch fls pre) action) with (selectiveFn os fls action).
    destruct (WalkDir os (selectiveFn os fls action) fsys r s) as [s1 [e |]];
      [reflexivity | apply IH]. }
  assert (Hroot : forall (St : Type)
                    (action : string -> FileInfo -> St -> St * option error) s,
             selectiveWalk_roots os fls fsys action (root :: post) s = (s, Some err)).
  { intros St action s. cbn [selectiveWalk_roots]. unfold WalkDir.
    rewrite Hfs. cbn [selectiveFn]. rewrite Hs. reflexivity. }
  rewrite findLatestChange_error in Hpre.
  unfold findLatestChange, visited, selectiveWalk in *. cbn [watch withWatch] in *.
  rewrite Hw, !selectiveWalk_roots_app, !Hsame in *.
  destruct (selectiveWalk_roots os fls fsys latestAction pre (zeroTime, ""))
    as [[t f] e]. cbn [snd] in Hpre. subst e. rewrite Hroot. split; [reflexivity |].
  destruct (selectiveWalk_roots os fls fsys recordAction pre []) as [l [e |]];
    [reflexivity |]. rewrite Hroot. reflexivity.
Qed.

Lemma unreadable_root_ends_the_scan_witness :
  findLatestChange linux (config ["/work/src"; "/work/gone"; "/work/src"] []) (srcFs 9) =
  (9, "/work/src/a.go", Some (ptr_PathError "lstat" "/work/gone" ENOENT)).
Proof.
  apply (unreadable_root_ends_the_scan linux
           (config ["/work/src"; "/work/gone"; "/work/src"] []) (srcFs 9)
           ["/work/src"] "/work/gone" ["/work/src"]
           (ptr_PathError "lstat" "/work/gone" ENOENT)
           eq_refl eq_refl eq_refl eq_refl).
Defined.

(** X11. A scan does not look at an excluded entry beyond its being a
    directory or not.  Two file systems whose watch roots show the same
    errors, or trees that list the same names and are equal except at
    excluded paths, where the two entries are of the same kind but may
    differ in modification time, in errors and in everything below them,
    give the same visited entries and the same result, and [main] takes
    the same step.  (The kind matters: an excluded file ends the walk of
    its parent, an excluded directory does not.) *)
Theorem changes_below_excluded_paths_are_not_seen os fls fsys fsys' :
  Forall (agreeAt os (ignore fls) fsys fsys') (watch fls) ->
  visited os fls fsys = visited os fls fsys' /\
  findLatestChange os fls fsys = findLatestChange os fls fsys' /\
  forall w w' st,
    ready w = ready w' -> spawn w = spawn w' ->
    files w = fsys -> files w' = fsys' ->
    step os fls w st = step os fls w' st.
Proof.
  intro Hall.
  assert (H : forall (St : Type)
                (action : string -> FileInfo -> St -> St * option error) s,
             selectiveWalk os fls fsys action s = selectiveWalk os fls fsys' action s).
  { intros St action s. apply selectiveWalk_roots_ext. intros root t Hin.
    rewrite Forall_forall in Hall. specialize (Hall root Hin).
    unfold agreeAt in Hall. unfold WalkDir.
    destruct (fsys root) as [e | d], (fsys' root) as [e' | d']; try contradiction.
    - subst e'. reflexivity.
    - rewrite (walkDir_agree os fls action d d' root t Hall). reflexivity. }
  assert (Hf : findLatestChange os fls fsys = findLatestChange os fls fsys')
    by (unfold findLatestChange; rewrite H; reflexivity).
  split; [unfold visited; rewrite H; reflexivity |]. split; [exact Hf |].
  intros w w' st Hr Hs Hw Hw'. unfold step.
  rewrite Hr, Hs, Hw, Hw', Hf. reflexivity.
Qed.

Lemma changes_below_excluded_paths_are_not_seen_witness :
  findLatestChange linux (config ["/work"] ["node_modules"])
    (oneRoot "/work"
       (Dir "work" (mtime 5) None
          [File "main.js" (mtime 7);
           Dir "node_modules" (mtime 8) None [File "index.js" (mtime 9)]])) =
  findLatestChange linux (config ["/work"] ["node_modules"])
    (oneRoot "/work"
       (Dir "work" (mtime 5) None
          [File "main.js" (mtime 7);
           Dir "node_modules" (mtime 50) None
             [File "index.js" (mtime 60); File "new.js" (mtime 70)]])).
Proof.
  apply changes_below_excluded_paths_are_not_seen.
  apply Forall_cons; [| apply Forall_nil].
  vm_compute. repeat split.
Defined.

(** The kind of an excluded entry does matter: with the ignore entry
    [b.tmp], a file of that name ends the walk of [src] before [c.go],
    a directory of that name does not. *)
Example excluded_kind_matters :
  findLatestChange linux (config ["/work/src"] ["b.tmp"])
    (oneRoot "/work/src"
       (Dir "src" (mtime 5) None
          [File "a.go" (mtime 7); File "b.tmp" (mtime 8); File "c.go" (mtime 9)]))
  = (7, "/work/src/a.go", None) /\
  findLatestChange linux (config ["/work/src"] ["b.tmp"])
    (oneRoot "/work/src"
       (Dir "src" (mtime 5) None
          [File "a.go" (mtime 7); Dir "b.tmp" (mtime 8) None []; File "c.go" (mtime 9)]))
  = (9, "/work/src/c.go", None).
Proof. split; reflexivity. Qed.

(** X12. Ignoring a directory leaves out that directory and what is
    below it and nothing else: its parent is walked as if the directory
    were not listed, the entries after it included. *)
Theorem ignored_directory_is_passed_over
  os fls path name info re pre n i r ds post :
  excluded os (ignore fls) (Join os path n) = true ->
  forall (St : Type) (action : string -> FileInfo -> St -> St * option error) s,
    walkDir os (selectiveFn os fls action) path
      (Dir name info re (pre ++ Dir n i r ds :: post)%list) s =
    walkDir os (selectiveFn os fls action) path (Dir name info re (pre ++ post)%list) s.
Proof.
  intros Hex St action s. rewrite !walkDir_Dir.
  change (selectiveFn os fls action path
            (Visit (Dir name info re (pre ++ Dir n i r ds :: post)%list)) s)
    with (selectiveFn os fls action path
            (Visit (Dir name info re (pre ++ post)%list)) s).
  destruct (selectiveFn os fls action path
              (Visit (Dir name info re (pre ++ post)%list)) s) as [s1 [e |]];
    [reflexivity |].
  destruct re as [e |]; [reflexivity |].
  apply walkEntries_excluded_dir, Hex.
Qed.

Lemma ignored_directory_is_passed_over_witness :
  walkDir linux (selectiveFn linux (config ["/work"] ["node_modules"]) latestAction)
    "/work"
    (Dir "work" (mtime 5) None
       ([File "a.js" (mtime 7)] ++
        Dir "node_modules" (mtime 8) None [File "index.js" (mtime 20)]
        :: [File "z.js" (mtime 9)])%list)
    (zeroTime, "") =
  ((9, "/work/z.js"), None).
Proof.
  rewrite (ignored_directory_is_passed_over linux (config ["/work"] ["node_modules"])
             "/work" "work" (mtime 5) None [File "a.js" (mtime 7)]
             "node_modules" (mtime 8) None [File "index.js" (mtime 20)]
             [File "z.js" (mtime 9)] eq_refl).
  reflexivity.
Defined.

(** ** More on the loop and the command runner *)

Section LoopMore.

Variable os : Platform.
Variable fls : flagState.

(** With errors of the system's own types only, [executeAndHandle]
    finds none of its fatal cases. *)
Lemma executeAndHandle_goes_on sp filename :
  systemErrorsOnly sp -> snd (executeAndHandle os fls sp filename) = true.
Proof.
  intro Hsp. unfold executeAndHandle, execute.
  destruct (command os fls) as [cmd |]; [| reflexivity].
  specialize (Hsp cmd).
  destruct (sp cmd) as [e | [e |]]; [| | reflexivity];
    destruct e; try discriminate Hsp; try reflexivity;
    destruct (negb (code =? 0)); reflexivity.
Qed.

Lemma run_last ws :
  forall st d,
    last (run os fls ws st) d =
    match ws with
    | [] => st
    | w :: ws' => last (run os fls ws' (step os fls w st)) d
    end.
Proof.
  destruct ws as [| w ws]; intros st d; [reflexivity |].
  cbn [run]. destruct (run_head os fls ws (step os fls w st)) as [rest Hrest].
  rewrite Hrest. reflexivity.
Qed.

Lemma run_quiet ws t :
  Forall (quietTick os fls t) ws ->
  forall out d,
    last (run os fls ws {| at_ := atSelect; currentLatestModTime := t; printed := out |}) d
    = {| at_ := atSelect; currentLatestModTime := t;
         printed := (out ++ repeat StatusLine (List.length ws))%list |}.
Proof.
  induction 1 as [| w ws (Hr & t' & f' & Hscan & Hle) _ IH]; intros out d;
    rewrite run_last.
  - cbn [List.length repeat]. rewrite app_nil_r. reflexivity.
  - unfold step. cbn [at_ currentLatestModTime printed]. rewrite Hr, Hscan.
    unfold After. destruct (t <? t') eqn:Hlt; [apply Z.ltb_lt in Hlt; lia |].
    cbn [negb]. rewrite IH. cbn [List.length repeat].
    rewrite <- app_assoc. reflexivity.
Qed.

Lemma triggers_returned ws :
  forall st, at_ st = returned -> triggers (run os fls ws st) = [].
Proof.
  induction ws as [| w ws IH]; intros st Hst; cbn [run triggers flat_map].
  - rewrite Hst. reflexivity.
  - rewrite Hst. cbn [app].
    assert (Hs : step os fls w st = st) by (unfold step; rewrite Hst; reflexivity).
    rewrite Hs. apply IH, Hst.
Qed.

Lemma triggers_run ws st :
  triggers (run os fls ws st) =
  ((match at_ st with atExecute t _ => [t] | _ => [] end) ++
   match ws with
   | [] => []
   | w :: ws' => triggers (run os fls ws' (step os fls w st))
   end)%list.
Proof. destruct ws; cbn [run triggers flat_map]; rewrite ?app_nil_r; reflexivity. Qed.

Lemma run_triggers_sorted ws :
  forall st, pending st ->
    StronglySorted Z.lt (triggers (run os fls ws st)) /\
    Forall (above st) (triggers (run os fls ws st)).
Proof.
  induction ws as [| w ws IH]; intros st Hp; rewrite triggers_run.
  - unfold above. destruct (at_ st); cbn [app]; split; repeat constructor. lia.
  - destruct (step_baseline os fls w st Hp) as [_ Hp'].
    destruct (IH _ Hp') as [Hs Ha]. clear IH.
    pose proof (triggers_returned ws (step os fls w st)) as Hret.
    remember (step os fls w st) as st' eqn:Hst'.
    remember (triggers (run os fls ws st')) as T eqn:HT. clear HT Hp'.
    unfold pending in Hp. unfold above in Ha |- *. unfold step in Hst'.
    destruct (at_ st) as [| | latest filename | latest |] eqn:Hat; cbn [app].
    + destruct (executeAndHandle os fls (spawn w) "") as [out [|]];
        subst st'; cbn [at_ currentLatestModTime] in Ha; auto.
    + destruct (ready w); [subst st'; cbn [at_ currentLatestModTime] in Ha; auto |].
      destruct (findLatestChange os fls (files w)) as [[latest filename] [e |]];
        [subst st'; cbn [at_ currentLatestModTime] in Ha; auto |].
      unfold After in Hst'. destruct (currentLatestModTime st <? latest) eqn:Hlt;
        subst st'; cbn [negb at_ currentLatestModTime] in Ha; [| auto].
      apply Z.ltb_lt in Hlt. split; [exact Hs |].
      eapply Forall_impl; [| exact Ha]. cbn beta. intros; lia.
    + destruct (executeAndHandle os fls (spawn w) filename) as [out [|]];
        subst st'; cbn [at_ currentLatestModTime] in Ha, Hret.
      * split.
        -- constructor; assumption.
        -- constructor; [lia |]. eapply Forall_impl; [| exact Ha]. cbn beta. intros; lia.
      * rewrite (Hret eq_refl). split; repeat constructor. lia.
    + subst st'. cbn [at_ currentLatestModTime] in Ha. auto.
    + subst st'. rewrite Hat in Ha. auto.
Qed.

End LoopMore.

(** X13. While nothing newer shows up the command is not run again:
    after the unconditional first execution, ticks whose scans find no
    time after the stored one leave the loop waiting, with the stored
    time unchanged and one status line printed per tick. *)
Theorem no_change_no_execution os fls t w1 ws d :
  systemErrorsOnly (spawn w1) ->
  Forall (quietTick os fls t) ws ->
  last (run os fls (w1 :: ws)
          {| at_ := atFirstExecution; currentLatestModTime := t; printed := [] |}) d =
  {| at_ := atSelect; currentLatestModTime := t;
     printed := ([FirstExecution] ++
                 match execute os fls (spawn w1) with
                 | Some (ptr_ExitError code) =>
                     if negb (code =? 0) then [ExitedWithCode code; Newline]
                     else [Newline]
                 | _ => [Newline]
                 end ++ repeat StatusLine (List.length ws))%list |}.
Proof.
  intros Hsp Hq. rewrite run_last.
  assert (Hstep : step os fls w1
                    {| at_ := atFirstExecution; currentLatestModTime := t;
                       printed := [] |} =
                  {| at_ := atSelect; currentLatestModTime := t;
                     printed := fst (executeAndHandle os fls (spawn w1) "") |}).
  { unfold step. cbn [at_ currentLatestModTime printed].
    pose proof (executeAndHandle_goes_on os fls (spawn w1) "" Hsp) as Hok.
    destruct (executeAndHandle os fls (spawn w1) "") as [out ok].
    cbn [snd] in Hok. subst ok. reflexivity. }
  rewrite Hstep, (run_quiet os fls ws t Hq). f_equal.
  unfold executeAndHandle.
  pose proof (executeAndHandle_goes_on os fls (spawn w1) "" Hsp) as Hok.
  unfold executeAndHandle in Hok. change (String.eqb "" "") with true in *. cbn iota in *.
  destruct (execute os fls (spawn w1)) as [e |]; [| reflexivity].
  destruct e; try discriminate Hok; try reflexivity.
  destruct (negb (code =? 0)); reflexivity.
Qed.

Lemma no_change_no_execution_witness :
  last (run linux (config ["/work/src"] [])
          [world caseTicker (srcFs 9) (Waited (Some (ptr_ExitError 1)));
           world caseTicker (srcFs 9) (Waited None);
           world caseTicker (srcFs 7) (Waited None)]
          {| at_ := atFirstExecution; currentLatestModTime := 9; printed := [] |})
       (returnedWith []) =
  {| at_ := atSelect; currentLatestModTime := 9;
     printed := [FirstExecution; ExitedWithCode 1; Newline; StatusLine; StatusLine] |}.
Proof.
  apply (no_change_no_execution linux (config ["/work/src"] []) 9
           (world caseTicker (srcFs 9) (Waited (Some (ptr_ExitError 1))))
           [world caseTicker (srcFs 9) (Waited None);
            world caseTicker (srcFs 7) (Waited None)]).
  - intro cmd. reflexivity.
  - apply Forall_cons; [| apply Forall_cons; [| apply Forall_nil]].
    + split; [reflexivity |]. exists 9, "/work/src/a.go". split; [reflexivity | lia].
    + split; [reflexivity |]. exists 7, "/work/src/a.go". split; [reflexivity | lia].
Defined.

(** X14. A modification triggers the command once: along every run of
    [main] the times for which the command is invoked after a poll are
    strictly increasing. *)
Theorem triggers_strictly_increase os args w0 ws :
  StronglySorted Z.lt (triggers (main os args w0 ws)).
Proof.
  unfold main.
  destruct (EnableVirtualTerminal os); [repeat constructor |].
  destruct (firstArgIs args "--help" "-h"); [repeat constructor |].
  destruct (firstArgIs args "--version" "-v"); [repeat constructor |].
  destruct (processFlags os args) as [err | fls]; [repeat constructor |].
  destruct (findLatestChange os fls (files w0)) as [[t f] [e |]]; [repeat constructor |].
  apply run_triggers_sorted. exact I.
Qed.

(** A run with two modifications of [a.go], polled twice each. *)
Example triggers_trace :
  triggers
    (main linux ["src"; "-e"; "make"] (world caseTicker (srcFs 3) (Waited None))
       [world caseTicker (srcFs 3) (Waited None);
        world caseTicker (srcFs 9) (Waited None);
        world caseTicker (srcFs 9) (Waited None);
        world caseTicker (srcFs 9) (Waited None);
        world caseTicker (srcFs 9) (Waited None);
        world caseTicker (srcFs 12) (Waited None);
        world caseTicker (srcFs 12) (Waited None);
        world caseTicker (srcFs 12) (Waited None);
        world caseTicker (srcFs 12) (Waited None)])
  = [9; 12].
Proof. reflexivity. Qed.

(** X15. With errors of the system's own types only, no outcome of the
    command ends the watcher: a step leads [main] to return only from the
    [select], on a signal or on a failed scan. *)
Theorem main_returns_only_on_signal_or_scan_error os fls w st :
  systemErrorsOnly (spawn w) ->
  at_ st <> returned ->
  at_ (step os fls w st) = returned ->
  at_ st = atSelect /\
  (ready w = caseSignals \/
   (ready w = caseTicker /\ exists e, snd (findLatestChange os fls (files w)) = Some e)).
Proof.
  intros Hsp Hnot. unfold step.
  destruct (at_ st) as [| | latest filename | latest |] eqn:Hat.
  - pose proof (executeAndHandle_goes_on os fls (spawn w) "" Hsp) as Hok.
    destruct (executeAndHandle os fls (spawn w) "") as [out ok].
    cbn [snd] in Hok. subst ok. discriminate.
  - intro H. split; [reflexivity |].
    destruct (ready w); [left; reflexivity | right; split; [reflexivity |]].
    destruct (findLatestChange os fls (files w)) as [[latest filename] [e |]].
    + exists e. reflexivity.
    + destruct (negb (After latest (currentLatestModTime st))); discriminate.
  - pose proof (executeAndHandle_goes_on os fls (spawn w) filename Hsp) as Hok.
    destruct (executeAndHandle os fls (spawn w) filename) as [out ok].
    cbn [snd] in Hok. subst ok. discriminate.
  - discriminate.
  - contradiction.
Qed.

Lemma main_returns_only_on_signal_or_scan_error_witness :
  ready (world caseSignals (srcFs 9) (StartFails (ptr_execError "sh" ENOENT)))
  = caseSignals \/
  (ready (world caseSignals (srcFs 9) (StartFails (ptr_execError "sh" ENOENT)))
   = caseTicker /\
   exists e,
     snd (findLatestChange linux (config ["/work/src"] [])
            (files (world caseSignals (srcFs 9)
                      (StartFails (ptr_execError "sh" ENOENT))))) = Some e).
Proof.
  apply (main_returns_only_on_signal_or_scan_error linux (config ["/work/src"] [])
           (world caseSignals (srcFs 9) (StartFails (ptr_execError "sh" ENOENT)))
           {| at_ := atSelect; currentLatestModTime := 9; printed := [] |}).
  - intro cmd. reflexivity.
  - discriminate.
  - reflexivity.
Defined.

Lemma string_append_assoc (a b c : string) : (a ++ b) ++ c = a ++ (b ++ c).
Proof. induction a as [| x a IH]; simpl; [reflexivity | rewrite IH; reflexivity]. Qed.

Lemma concat_cons sep x y l :
  String.concat sep (x :: y :: l) = x ++ sep ++ String.concat sep (y :: l).
Proof. reflexivity. Qed.

(** Joining arguments with a space does not tell one argument with a
    space inside from two arguments. *)
Lemma Join_strings_merge xs a b ys :
  Join_strings (xs ++ a :: b :: ys)%list " " =
  Join_strings (xs ++ (a ++ " " ++ b)%string :: ys)%list " ".
Proof.
  unfold Join_strings. induction xs as [| x xs IH]; cbn [app].
  - rewrite concat_cons. destruct ys as [| y ys]; [reflexivity |].
    rewrite !concat_cons, !string_append_assoc. reflexivity.
  - destruct xs as [| x' xs]; cbn [app] in *.
    + rewrite (concat_cons " " x a (b :: ys)),
        (concat_cons " " x (a ++ " " ++ b)%string ys), IH. reflexivity.
    + rewrite (concat_cons " " x x' (xs ++ a :: b :: ys)%list),
        (concat_cons " " x x' (xs ++ (a ++ " " ++ b)%string :: ys)%list), IH.
      reflexivity.
Qed.

(** X16. On darwin and linux the command is handed to [/bin/sh -c] as
    one string, the arguments joined by single spaces: an argument with a
    space inside runs the same command as the two arguments it would
    split into, with the same outcome for [executeAndHandle]. *)
Theorem unix_command_loses_argument_boundaries os fls xs a b ys sp filename :
  String.eqb (GOOS os) "darwin" || String.eqb (GOOS os) "linux" = true ->
  command os (withExec fls (xs ++ a :: b :: ys)%list) =
  Some {| cmdName := "/bin/sh";
          cmdArgs := ["-c"; Join_strings (xs ++ (a ++ " " ++ b)%string :: ys)%list " "] |} /\
  executeAndHandle os (withExec fls (xs ++ a :: b :: ys)%list) sp filename =
  executeAndHandle os (withExec fls (xs ++ (a ++ " " ++ b)%string :: ys)%list) sp filename.
Proof.
  intro Hunix.
  assert (Hw : String.eqb (GOOS os) "windows" = false).
  { apply orb_true_iff in Hunix.
    destruct Hunix as [H | H]; apply String.eqb_eq in H; rewrite H; reflexivity. }
  assert (Hc : forall e,
             command os (withExec fls e) =
             Some {| cmdName := "/bin/sh"; cmdArgs := ["-c"; Join_strings e " "] |}).
  { intro e. unfold command. rewrite Hw, Hunix. reflexivity. }
  split.
  - rewrite Hc, Join_strings_merge. reflexivity.
  - unfold executeAndHandle, execute. rewrite !Hc, Join_strings_merge. reflexivity.
Qed.

Lemma unix_command_loses_argument_boundaries_witness :
  command linux (withExec (config ["/work/src"] []) ([] ++ "go" :: "test" :: ["./..."])%list)
  = Some {| cmdName := "/bin/sh"; cmdArgs := ["-c"; "go test ./..."] |}.
Proof.
  apply (unix_command_loses_argument_boundaries linux (config ["/work/src"] [])
           [] "go" "test" ["./..."] (fun _ => Waited None) "" eq_refl).
Defined.

(** ** The console mode *)

Lemma log2_lt_32 a : 0 <= a < 2 ^ 32 -> Z.log2 a < 32.
Proof.
  intros [H0 H1]. destruct (Z.eq_dec a 0) as [-> | Hne]; [reflexivity |].
  apply Z.log2_lt_pow2; lia.
Qed.

Lemma lor_uint32 a b : 0 <= a < 2 ^ 32 -> 0 <= b < 2 ^ 32 -> 0 <= Z.lor a b < 2 ^ 32.
Proof.
  intros Ha Hb. assert (H0 : 0 <= Z.lor a b) by (apply Z.lor_nonneg; lia).
  split; [exact H0 |].
  destruct (Z.eq_dec (Z.lor a b) 0) as [-> | Hne]; [reflexivity |].
  apply Z.log2_lt_pow2; [lia |]. rewrite Z.log2_lor by lia.
  pose proof (log2_lt_32 a Ha). pose proof (log2_lt_32 b Hb). lia.
Qed.

Lemma ldiff_uint32 a b : 0 <= a < 2 ^ 32 -> 0 <= b -> 0 <= Z.ldiff a b < 2 ^ 32.
Proof.
  intros Ha Hb. split; [apply Z.ldiff_nonneg; lia |].
  assert (Hd : Z.land (Z.ldiff a b) (Z.land a b) = 0).
  { apply Z.bits_inj'. intros n Hn.
    rewrite !Z.land_spec, Z.ldiff_spec, Z.bits_0.
    destruct (Z.testbit a n), (Z.testbit b n); reflexivity. }
  pose proof (Z.add_lor_land (Z.ldiff a b) (Z.land a b)) as H.
  rewrite Z.lor_ldiff_and, Hd in H.
  assert (0 <= Z.land a b) by (apply Z.land_nonneg; lia). lia.
Qed.

(** X17. On a console whose two system calls succeed,
    [EnableVirtualTerminal] stores the mode with the flag's bits set and
    every other bit as it was, within uint32, returns no error, and a
    second call changes nothing. *)
Theorem enable_virtual_terminal_sets_only_the_flag flag c :
  0 <= flag < 2 ^ 32 -> 0 <= Ansi.mode c < 2 ^ 32 ->
  Ansi.getFails c = None -> Ansi.setFails c = None ->
  let r := Ansi.EnableVirtualTerminal flag c in
  snd r = None /\
  0 <= Ansi.mode (fst r) < 2 ^ 32 /\
  Z.land (Ansi.mode (fst r)) flag = flag /\
  (forall i, Z.testbit flag i = false ->
             Z.testbit (Ansi.mode (fst r)) i = Z.testbit (Ansi.mode c) i) /\
  Ansi.EnableVirtualTerminal flag (fst r) = r.
Proof.
  intros Hf Hm Hg Hs. cbv zeta.
  unfold Ansi.EnableVirtualTerminal, Ansi.GetConsoleMode, Ansi.SetConsoleMode.
  rewrite Hg, Hs. cbn [fst snd Ansi.mode Ansi.getFails Ansi.setFails].
  split; [reflexivity |]. split; [apply lor_uint32; assumption |].
  split; [| split].
  - apply Z.bits_inj'. intros n Hn. rewrite Z.land_spec, Z.lor_spec.
    destruct (Z.testbit (Ansi.mode c) n), (Z.testbit flag n); reflexivity.
  - intros i Hi. rewrite Z.lor_spec, Hi. apply orb_false_r.
  - rewrite <- Z.lor_assoc, Z.lor_diag. reflexivity.
Qed.

Lemma enable_virtual_terminal_sets_only_the_flag_witness :
  Z.land
    (Ansi.mode (fst (Ansi.EnableVirtualTerminal 4
                       {| Ansi.mode := 3; Ansi.getFails := None;
                          Ansi.setFails := None |}))) 4 = 4.
Proof.
  apply (enable_virtual_terminal_sets_only_the_flag 4
           {| Ansi.mode := 3; Ansi.getFails := None; Ansi.setFails := None |});
    [lia | cbn; lia | reflexivity | reflexivity].
Defined.

(** X18. [DisableVirtualTerminal] after [EnableVirtualTerminal], both
    succeeding, leaves the flag's bits clear and every other bit as it
    was before the two calls: the console is as it was found exactly
    when the flag was clear then; a flag that was already set is not
    restored. *)
Theorem disable_after_enable_clears_the_flag flag c :
  0 <= flag < 2 ^ 32 -> 0 <= Ansi.mode c < 2 ^ 32 ->
  Ansi.getFails c = None -> Ansi.setFails c = None ->
  let r := Ansi.DisableVirtualTerminal flag (fst (Ansi.EnableVirtualTerminal flag c)) in
  snd r = None /\
  Ansi.mode (fst r) = Z.ldiff (Ansi.mode c) flag /\
  0 <= Ansi.mode (fst r) < 2 ^ 32 /\
  Z.land (Ansi.mode (fst r)) flag = 0 /\
  (fst r = c <-> Z.land (Ansi.mode c) flag = 0).
Proof.
  intros Hf Hm Hg Hs. cbv zeta.
  unfold Ansi.DisableVirtualTerminal, Ansi.EnableVirtualTerminal,
    Ansi.GetConsoleMode, Ansi.SetConsoleMode.
  rewrite Hg, Hs. cbn [fst snd Ansi.mode Ansi.getFails Ansi.setFails].
  assert (Hl : Z.ldiff (Z.lor (Ansi.mode c) flag) flag = Z.ldiff (Ansi.mode c) flag).
  { apply Z.bits_inj'. intros n Hn. rewrite !Z.ldiff_spec, Z.lor_spec.
    destruct (Z.testbit (Ansi.mode c) n), (Z.testbit flag n); reflexivity. }
  rewrite Hl.
  assert (Hclear : Z.land (Z.ldiff (Ansi.mode c) flag) flag = 0).
  { apply Z.bits_inj'. intros n Hn. rewrite Z.land_spec, Z.ldiff_spec, Z.bits_0.
    destruct (Z.testbit (Ansi.mode c) n), (Z.testbit flag n); reflexivity. }
  split; [reflexivity |]. split; [reflexivity |].
  split; [apply ldiff_uint32; lia |]. split; [exact Hclear |].
  destruct c as [m g s]. cbn [Ansi.mode Ansi.getFails Ansi.setFails] in *. subst g s.
  split.
  - intro H. inversion H as [Hm']. rewrite Hm'. rewrite <- Hm' at 1. exact Hclear.
  - intro H. f_equal.
    rewrite <- (Z.lor_ldiff_and m flag) at 2. rewrite H. apply eq_sym, Z.lor_0_r.
Qed.

Lemma disable_after_enable_clears_the_flag_witness :
  Ansi.mode
    (fst (Ansi.DisableVirtualTerminal 4
            (fst (Ansi.EnableVirtualTerminal 4
                    {| Ansi.mode := 7; Ansi.getFails := None;
                       Ansi.setFails := None |}))))
  = Z.ldiff 7 4.
Proof.
  apply (disable_after_enable_clears_the_flag 4
           {| Ansi.mode := 7; Ansi.getFails := None; Ansi.setFails := None |});
    [lia | cbn; lia | reflexivity | reflexivity].
Defined.
